(** * Agentic Voice Mesh: the call lifecycle of [src/app/page.tsx]

    A shallow embedding of the [Home] component's controller code: the refs
    and React state it owns, the callbacks [updateStatus], [destroyCall],
    [ensureLocalStream], [observeMicLevel], [registerCallHandlers],
    [placeCall], [endCall], [handleCopyId] and the handlers installed on the
    peer and on each call.

    The transport (peerjs) and the browser are collaborators outside the
    repository.  Every call the component makes on them (and every React
    setter it invokes) is recorded, in order, in a log kept in the world;
    what they answer is read from an environment record [Env]; the events
    they deliver are the inputs of the step function [step], one handler run
    to completion per step, as the page's single-threaded event loop runs
    them.  An [await] on the microphone promise ends a step: the rest of the
    async function is parked in the world and run by a later step.
    Everything else an async function does happens inside one step. *)

From Stdlib Require Import String Ascii List ZArith NArith Bool Lia Arith.
From Stdlib.Strings Require Import Byte.
Import ListNotations.

(** ** JavaScript strings *)

Module Js.

(** A string is its sequence of UTF-16 code units. *)
Definition jsstring : Type := list N.

(** A literal of the source that is plain ASCII. *)
Definition lit (s : string) : jsstring :=
  List.map N_of_ascii (list_ascii_of_string s).

(** U+2026, the ellipsis used by three status messages. *)
Definition ellipsis : jsstring := [8230%N].

(** WhiteSpace and LineTerminator code points of ECMAScript, the ones
    [String.prototype.trim] strips; all lie in the basic plane. *)
Definition is_white (c : N) : bool :=
  ((9 <=? c) && (c <=? 13)           (* TAB LF VT FF CR *)
   || (c =? 32) || (c =? 160)         (* SP, NBSP *)
   || (c =? 5760)                     (* U+1680 *)
   || ((8192 <=? c) && (c <=? 8202))  (* U+2000 .. U+200A *)
   || (c =? 8232) || (c =? 8233)      (* LS, PS *)
   || (c =? 8239) || (c =? 8287)      (* U+202F, U+205F *)
   || (c =? 12288) || (c =? 65279))%N (* U+3000, U+FEFF *).

Fixpoint trimStart (s : jsstring) : jsstring :=
  match s with
  | [] => []
  | c :: r => if is_white c then trimStart r else s
  end.

Definition trimEnd (s : jsstring) : jsstring := rev (trimStart (rev s)).

Definition trim (s : jsstring) : jsstring := trimEnd (trimStart s).

(** [s.slice(a, b)] for [0 <= a <= b]. *)
Definition slice (a b : nat) (s : jsstring) : jsstring :=
  firstn (b - a) (skipn a s).

(** Truthiness of a string: non-empty. *)
Definition truthy (s : jsstring) : bool :=
  match s with [] => false | _ :: _ => true end.

(** A thrown or rejected value: an [Error] instance with its [message], or
    anything else. *)
Inductive value : Type :=
| ErrorObj (message : jsstring)
| Other.

(** [error instanceof Error ? error.message : fallback] *)
Definition message_or (fallback : jsstring) (error : value) : jsstring :=
  match error with
  | ErrorObj m => m
  | Other => fallback
  end.

(** [Math.round (s / len)] for integers [0 <= s] and [0 < len]: the
    quotient rounded to the nearest integer, halves going up. *)
Definition round_div (s len : Z) : Z := ((2 * s + len) / (2 * len))%Z.

End Js.

Import Js.

(** ** Data model *)

Inductive CallStatus : Type :=
| initializing
| ready
| calling
| in_call
| incoming
| error.

Definition CallStatus_eqb (a b : CallStatus) : bool :=
  match a, b with
  | initializing, initializing | ready, ready | calling, calling
  | in_call, in_call | incoming, incoming | error, error => true
  | _, _ => false
  end.

Definition AGENT_PREFIX : jsstring := lit "agentic".

(** Objects handed out by the collaborators; [_id] stands for the object's
    identity. *)
Record MediaStream : Type := { stream_id : nat }.

Record MediaConnection : Type := { conn_id : nat; conn_peer : jsstring }.

Record AudioContext : Type := { ctx_id : nat }.

Record AnalyserNode : Type := { analyser_id : nat; fftSize : Z }.

Record Peer : Type := { peer_id : jsstring }.

Record HTMLAudioElement : Type := { srcObject : option MediaStream }.

Definition frequencyBinCount (a : AnalyserNode) : Z := (fftSize a / 2)%Z.

Definition same_call (a b : MediaConnection) : bool :=
  Nat.eqb (conn_id a) (conn_id b).

Inductive CallEvent : Type := on_stream | on_close | on_error.

(** One entry of the log: a call made on a collaborator or a React setter. *)
Inductive Effect : Type :=
| SetLocalId (id : jsstring)
| SetStatus (s : CallStatus)
| SetStatusMessage (m : jsstring)
| SetIsCopying (b : bool)
| SetMicLevel (level : Z)
| NewPeer (id : jsstring)
| PeerCall (remote : jsstring) (stream : MediaStream)
| PeerReconnect
| PeerDestroy
| CallOn (call : MediaConnection) (ev : CallEvent)
| CallAnswer (call : MediaConnection) (stream : MediaStream)
| CallClose (call : MediaConnection)
| GetUserMedia
| StopTracks (stream : MediaStream)
| NewAudioContext (ctx : AudioContext)
| CloseAudioContext (ctx : AudioContext)
| CreateAnalyser (ctx : AudioContext) (a : AnalyserNode)
| ConnectSource (stream : MediaStream) (a : AnalyserNode)
| DisconnectAnalyser (a : AnalyserNode)
| GetByteFrequencyData (a : AnalyserNode)
| RequestAnimationFrame (handle : Z) (a : AnalyserNode)
| CancelAnimationFrame (handle : Z)
| FrameRun (handle : Z)
| ClipboardWrite (text : jsstring)
| SetTimeoutCopy.

(** The rest of an async function parked at [await getUserMedia]. *)
Inductive Continuation : Type :=
| ResumePlaceCall (remoteId : jsstring)
| ResumeAnswer (incomingCall : MediaConnection).

(** The [useRef] cells. *)
Record Refs : Type := mkRefs {
  remoteAudioRef : option HTMLAudioElement;
  localAudioRef : option HTMLAudioElement;
  peerRef : option Peer;
  callRef : option MediaConnection;
  localStreamRef : option MediaStream;
  analyserRef : option AnalyserNode;
  audioContextRef : option AudioContext;
  animationFrameRef : option Z
}.

(** The [useState] cells. *)
Record State : Type := mkState {
  localId : jsstring;
  remoteId : jsstring;
  status : CallStatus;
  statusMessage : jsstring;
  isCopying : bool;
  micLevel : Z
}.

Record World : Type := mkWorld {
  refs : Refs;
  state : State;
  isMounted : bool;              (* the effect's closure variable *)
  log : list Effect;             (* newest entry first *)
  awaiting : list Continuation;  (* parked at the microphone promise *)
  lastFrame : Z;                 (* last animation-frame handle issued *)
  lastObject : nat               (* last object identity issued *)
}.

(** What the collaborators answer during one step. *)
Record Env : Type := mkEnv {
  env_getUserMedia : MediaStream + value;   (* the promise settles *)
  env_AudioContextCtor : bool;              (* a constructor exists *)
  env_frequencyData : list byte;            (* one analyser read *)
  env_peer_call : MediaConnection + value;  (* [peer.call] returns or throws *)
  env_answer : option value;                (* [answer] throws *)
  env_clipboard : option value              (* [writeText] rejects *)
}.

(** The history in chronological order. *)
Definition history (w : World) : list Effect := rev (log w).

(** What was logged between [w] and a later world [w'], oldest first. *)
Definition effects_between (w w' : World) : list Effect :=
  rev (firstn (length (log w') - length (log w)) (log w')).

(** ** Field updates *)

Definition with_remoteAudioRef (v : option HTMLAudioElement) (r : Refs) : Refs :=
  mkRefs v (localAudioRef r) (peerRef r) (callRef r) (localStreamRef r)
         (analyserRef r) (audioContextRef r) (animationFrameRef r).

Definition with_localAudioRef (v : option HTMLAudioElement) (r : Refs) : Refs :=
  mkRefs (remoteAudioRef r) v (peerRef r) (callRef r) (localStreamRef r)
         (analyserRef r) (audioContextRef r) (animationFrameRef r).

Definition with_peerRef (v : option Peer) (r : Refs) : Refs :=
  mkRefs (remoteAudioRef r) (localAudioRef r) v (callRef r) (localStreamRef r)
         (analyserRef r) (audioContextRef r) (animationFrameRef r).

Definition with_callRef (v : option MediaConnection) (r : Refs) : Refs :=
  mkRefs (remoteAudioRef r) (localAudioRef r) (peerRef r) v (localStreamRef r)
         (analyserRef r) (audioContextRef r) (animationFrameRef r).

Definition with_localStreamRef (v : option MediaStream) (r : Refs) : Refs :=
  mkRefs (remoteAudioRef r) (localAudioRef r) (peerRef r) (callRef r) v
         (analyserRef r) (audioContextRef r) (animationFrameRef r).

Definition with_analyserRef (v : option AnalyserNode) (r : Refs) : Refs :=
  mkRefs (remoteAudioRef r) (localAudioRef r) (peerRef r) (callRef r)
         (localStreamRef r) v (audioContextRef r) (animationFrameRef r).

Definition with_audioContextRef (v : option AudioContext) (r : Refs) : Refs :=
  mkRefs (remoteAudioRef r) (localAudioRef r) (peerRef r) (callRef r)
         (localStreamRef r) (analyserRef r) v (animationFrameRef r).

Definition with_animationFrameRef (v : option Z) (r : Refs) : Refs :=
  mkRefs (remoteAudioRef r) (localAudioRef r) (peerRef r) (callRef r)
         (localStreamRef r) (analyserRef r) (audioContextRef r) v.

Definition with_localId (v : jsstring) (s : State) : State :=
  mkState v (remoteId s) (status s) (statusMessage s) (isCopying s) (micLevel s).

Definition with_remoteId (v : jsstring) (s : State) : State :=
  mkState (localId s) v (status s) (statusMessage s) (isCopying s) (micLevel s).

Definition with_status (v : CallStatus) (s : State) : State :=
  mkState (localId s) (remoteId s) v (statusMessage s) (isCopying s) (micLevel s).

Definition with_statusMessage (v : jsstring) (s : State) : State :=
  mkState (localId s) (remoteId s) (status s) v (isCopying s) (micLevel s).

Definition with_isCopying (v : bool) (s : State) : State :=
  mkState (localId s) (remoteId s) (status s) (statusMessage s) v (micLevel s).

Definition with_micLevel (v : Z) (s : State) : State :=
  mkState (localId s) (remoteId s) (status s) (statusMessage s) (isCopying s) v.

Definition with_refs (v : Refs) (w : World) : World :=
  mkWorld v (state w) (isMounted w) (log w) (awaiting w) (lastFrame w)
          (lastObject w).

Definition with_state (v : State) (w : World) : World :=
  mkWorld (refs w) v (isMounted w) (log w) (awaiting w) (lastFrame w)
          (lastObject w).

Definition with_isMounted (v : bool) (w : World) : World :=
  mkWorld (refs w) (state w) v (log w) (awaiting w) (lastFrame w)
          (lastObject w).

Definition with_log (v : list Effect) (w : World) : World :=
  mkWorld (refs w) (state w) (isMounted w) v (awaiting w) (lastFrame w)
          (lastObject w).

Definition with_awaiting (v : list Continuation) (w : World) : World :=
  mkWorld (refs w) (state w) (isMounted w) (log w) v (lastFrame w)
          (lastObject w).

Definition with_lastFrame (v : Z) (w : World) : World :=
  mkWorld (refs w) (state w) (isMounted w) (log w) (awaiting w) v
          (lastObject w).

Definition with_lastObject (v : nat) (w : World) : World :=
  mkWorld (refs w) (state w) (isMounted w) (log w) (awaiting w) (lastFrame w) v.

(** ** The monad of a handler: world passing with JavaScript exceptions

    What a handler did before it throws stays done. *)

Inductive Outcome (A : Type) : Type :=
| Returned (a : A)
| Thrown (e : value).

Arguments Returned {A} a.
Arguments Thrown {A} e.

Definition M (A : Type) : Type := World -> Outcome A * World.

Definition ret {A : Type} (a : A) : M A := fun w => (Returned a, w).

Definition throw {A : Type} (e : value) : M A := fun w => (Thrown e, w).

Definition bind {A B : Type} (m : M A) (k : A -> M B) : M B :=
  fun w =>
    match m w with
    | (Returned a, w') => k a w'
    | (Thrown e, w') => (Thrown e, w')
    end.

Definition try_catch {A : Type} (body : M A) (handler : value -> M A) : M A :=
  fun w =>
    match body w with
    | (Returned a, w') => (Returned a, w')
    | (Thrown e, w') => handler e w'
    end.

Declare Scope js_scope.
Delimit Scope js_scope with js.
Notation "x <- m ;; k" := (bind m (fun x => k))
  (at level 61, m at next level, right associativity) : js_scope.
Notation "m ;; k" := (bind m (fun _ => k))
  (at level 61, right associativity) : js_scope.
Open Scope js_scope.

(** The world a handler leaves behind; an exception nobody catches ends the
    handler and changes nothing more. *)
Definition run {A : Type} (m : M A) (w : World) : World := snd (m w).

Definition outcome {A : Type} (m : M A) (w : World) : Outcome A := fst (m w).

Definition emit (e : Effect) : M unit :=
  fun w => (Returned tt, with_log (e :: log w) w).

Definition read_ref {A : Type} (cell : Refs -> A) : M A :=
  fun w => (Returned (cell (refs w)), w).

Definition write_ref (update : Refs -> Refs) : M unit :=
  fun w => (Returned tt, with_refs (update (refs w)) w).

Definition read_state {A : Type} (cell : State -> A) : M A :=
  fun w => (Returned (cell (state w)), w).

Definition write_state (update : State -> State) : M unit :=
  fun w => (Returned tt, with_state (update (state w)) w).

Definition skip : M unit := ret tt.

(** [cell.current?.method()] and [if (cell.current) { ... }] *)
Definition when_some {A : Type} (o : option A) (k : A -> M unit) : M unit :=
  match o with
  | Some a => k a
  | None => skip
  end.

(** ** React setters *)

Definition setLocalId (id : jsstring) : M unit :=
  emit (SetLocalId id) ;; write_state (with_localId id).

Definition setStatus (s : CallStatus) : M unit :=
  emit (SetStatus s) ;; write_state (with_status s).

Definition setStatusMessage (m : jsstring) : M unit :=
  emit (SetStatusMessage m) ;; write_state (with_statusMessage m).

Definition setIsCopying (b : bool) : M unit :=
  emit (SetIsCopying b) ;; write_state (with_isCopying b).

Definition setMicLevel (level : Z) : M unit :=
  emit (SetMicLevel level) ;; write_state (with_micLevel level).

(** ** Browser primitives *)

(** A number used as a condition: [0] is falsy. *)
Definition truthy_number (n : Z) : bool := negb (n =? 0)%Z.

(** The browser hands out animation-frame handles by counting up from 1. *)
Definition requestAnimationFrame (closure : AnalyserNode) : M Z :=
  fun w =>
    let handle := (lastFrame w + 1)%Z in
    (Returned handle,
     with_lastFrame handle
       (with_log (RequestAnimationFrame handle closure :: log w) w)).

Definition cancelAnimationFrame (handle : Z) : M unit :=
  emit (CancelAnimationFrame handle).

Definition fresh_object : M nat :=
  fun w => (Returned (S (lastObject w)), with_lastObject (S (lastObject w)) w).

Definition new_AudioContext : M AudioContext :=
  n <- fresh_object ;;
  let ctx := {| ctx_id := n |} in
  emit (NewAudioContext ctx) ;; ret ctx.

(** A fresh analyser has the Web Audio default window of 2048. *)
Definition createAnalyser (context : AudioContext) : M AnalyserNode :=
  n <- fresh_object ;;
  let analyser := {| analyser_id := n; fftSize := 2048 |} in
  emit (CreateAnalyser context analyser) ;; ret analyser.

Definition set_fftSize (size : Z) (a : AnalyserNode) : AnalyserNode :=
  {| analyser_id := analyser_id a; fftSize := size |}.

(** [new Uint8Array(n)] *)
Definition new_Uint8Array (n : Z) : list Z := repeat 0%Z (Z.to_nat n).

(** [analyser.getByteFrequencyData(data)]: the read overwrites the array
    front to back, as far as both reach; the array keeps its length. *)
Fixpoint write_bytes (data : list Z) (read : list byte) : list Z :=
  match data, read with
  | _ :: data', b :: read' => Z.of_N (Byte.to_N b) :: write_bytes data' read'
  | _, _ => data
  end.

(** [data.reduce((acc, value) => acc + value, 0)] *)
Definition reduce_sum (data : list Z) : Z :=
  fold_left (fun acc value => (acc + value)%Z) data 0%Z.

(** ** The component's callbacks *)

Definition createAgentId (raw : jsstring) : jsstring :=
  AGENT_PREFIX ++ lit "-" ++ slice 0 4 raw ++ lit "-" ++ slice 4 8 raw.

Definition statusLabel (s : CallStatus) : jsstring :=
  match s with
  | ready => lit "Ready"
  | calling => lit "Dialing" ++ ellipsis
  | incoming => lit "Incoming Call"
  | in_call => lit "Live"
  | error => lit "Error"
  | initializing => lit "Starting" ++ ellipsis
  end.

Definition updateStatus (nextStatus : CallStatus) (message : jsstring) : M unit :=
  setStatus nextStatus ;;
  setStatusMessage message.

Definition destroyCall : M unit :=
  call <- read_ref callRef ;;
  when_some call (fun c => emit (CallClose c)) ;;
  write_ref (with_callRef None) ;;
  remoteAudio <- read_ref remoteAudioRef ;;
  when_some remoteAudio (fun _ =>
    write_ref (with_remoteAudioRef (Some {| srcObject := None |}))) ;;
  localStream <- read_ref localStreamRef ;;
  when_some localStream (fun stream =>
    emit (StopTracks stream) ;;
    write_ref (with_localStreamRef None)) ;;
  audioContext <- read_ref audioContextRef ;;
  when_some audioContext (fun context =>
    emit (CloseAudioContext context) ;;
    write_ref (with_audioContextRef None)) ;;
  analyser <- read_ref analyserRef ;;
  when_some analyser (fun a =>
    emit (DisconnectAnalyser a) ;;
    write_ref (with_analyserRef None)) ;;
  frame <- read_ref animationFrameRef ;;
  when_some frame (fun handle =>
    if truthy_number handle then
      cancelAnimationFrame handle ;;
      write_ref (with_animationFrameRef None)
    else skip) ;;
  setMicLevel 0.

(** What one [tick] publishes: the array holds [frequencyBinCount] bytes, the
    read fills it (the browser writes every bin; bins missing from a shorter
    read count as 0), the sum is divided by the array's length and rounded.
    The sum stays below 2^53 and is exact; an array without bins would give
    [NaN], which no analyser of the component has (its [fftSize] is 256). *)
Definition sample (analyser : AnalyserNode) (read : list byte) : Z :=
  let data := write_bytes (new_Uint8Array (frequencyBinCount analyser)) read in
  round_div (reduce_sum data) (Z.of_nat (length data)).

Definition registerCallHandlers (call : MediaConnection) : M unit :=
  previous <- read_ref callRef ;;
  when_some previous (fun c => emit (CallClose c)) ;;
  write_ref (with_callRef (Some call)) ;;
  emit (CallOn call on_stream) ;;
  emit (CallOn call on_close) ;;
  emit (CallOn call on_error).

Definition endCall : M unit :=
  call <- read_ref callRef ;;
  when_some call (fun c => emit (CallClose c)) ;;
  write_ref (with_callRef None) ;;
  destroyCall ;;
  updateStatus ready (lit "Call ended.").

Definition isCallActive (s : CallStatus) : bool :=
  CallStatus_eqb s calling || CallStatus_eqb s in_call.

Definition isReady (s : CallStatus) : bool :=
  CallStatus_eqb s ready || CallStatus_eqb s incoming.

(** What V8 reports when [peerRef.current] is [null] at [.call]. *)
Definition null_call_message : jsstring :=
  lit "Cannot read properties of null (reading 'call')".

Section Handlers.

Variable env : Env.

Definition tick (analyser : AnalyserNode) : M unit :=
  emit (GetByteFrequencyData analyser) ;;
  setMicLevel (sample analyser (env_frequencyData env)) ;;
  handle <- requestAnimationFrame analyser ;;
  write_ref (with_animationFrameRef (Some handle)).

Definition observeMicLevel : M unit :=
  held <- read_ref analyserRef ;;
  match held with
  | None => skip
  | Some analyser =>
      frame <- read_ref animationFrameRef ;;
      when_some frame (fun handle =>
        if truthy_number handle then
          cancelAnimationFrame handle ;;
          write_ref (with_animationFrameRef None)
        else skip) ;;
      tick analyser
  end.

(** [ensureLocalStream] up to its [await]: the stream already held, or
    the microphone request sent. *)
Definition ensureLocalStream_begin : M (option MediaStream) :=
  held <- read_ref localStreamRef ;;
  match held with
  | Some stream => ret (Some stream)
  | None => emit GetUserMedia ;; ret None
  end.

(** [ensureLocalStream] from the settling of the microphone promise on. *)
Definition ensureLocalStream_settled : M MediaStream :=
  try_catch
    (stream <- match env_getUserMedia env with
               | inl s => ret s
               | inr e => throw e
               end ;;
     write_ref (with_localStreamRef (Some stream)) ;;
     localAudio <- read_ref localAudioRef ;;
     when_some localAudio (fun _ =>
       write_ref (with_localAudioRef (Some {| srcObject := Some stream |}))) ;;
     held <- read_ref audioContextRef ;;
     match held with
     | Some _ => skip
     | None =>
         if env_AudioContextCtor env then
           ctx <- new_AudioContext ;;
           write_ref (with_audioContextRef (Some ctx))
         else
           throw (ErrorObj (lit "AudioContext is not supported in this browser."))
     end ;;
     context <- read_ref audioContextRef ;;
     match context with
     | None => throw (ErrorObj (lit "Failed to initialize audio context."))
     | Some context =>
         created <- createAnalyser context ;;
         let analyser := set_fftSize 256 created in
         emit (ConnectSource stream analyser) ;;
         write_ref (with_analyserRef (Some analyser)) ;;
         ret stream
     end)
    (fun err =>
       updateStatus error (message_or (lit "Microphone access was denied.") err) ;;
       throw err).

(** [ensureLocalStream] as one call, its promise settling at once. *)
Definition ensureLocalStream : M MediaStream :=
  held <- ensureLocalStream_begin ;;
  match held with
  | Some stream => ret stream
  | None => ensureLocalStream_settled
  end.

(** [peerRef.current.call(remote, stream)] *)
Definition peer_call (remote : jsstring) (stream : MediaStream)
  : M MediaConnection :=
  peer <- read_ref peerRef ;;
  match peer with
  | None => throw (ErrorObj null_call_message)
  | Some _ =>
      emit (PeerCall remote stream) ;;
      match env_peer_call env with
      | inl call => ret call
      | inr e => throw e
      end
  end.

(** [incomingCall.answer(stream)] *)
Definition call_answer (call : MediaConnection) (stream : MediaStream)
  : M unit :=
  emit (CallAnswer call stream) ;;
  match env_answer env with
  | None => skip
  | Some e => throw e
  end.

(** The [try] block of [placeCall], given how the stream is obtained. *)
Definition placeCall_try (remoteId : jsstring) (acquire : M MediaStream)
  : M unit :=
  try_catch
    (stream <- acquire ;;
     observeMicLevel ;;
     updateStatus calling (lit "Calling " ++ remoteId ++ ellipsis) ;;
     call <- peer_call (trim remoteId) stream ;;
     registerCallHandlers call)
    (fun err =>
       updateStatus error (message_or (lit "Failed to start call.") err)).

(** [placeCall] up to the microphone promise; [Some k] when it parks. *)
Definition placeCall_begin (remoteId : jsstring) : M (option Continuation) :=
  if negb (truthy (trim remoteId)) then
    updateStatus error (lit "Enter a peer ID before calling.") ;;
    ret None
  else
    peer <- read_ref peerRef ;;
    match peer with
    | None =>
        updateStatus error (lit "Agent not ready yet.") ;;
        ret None
    | Some _ =>
        held <- ensureLocalStream_begin ;;
        match held with
        | Some stream => placeCall_try remoteId (ret stream) ;; ret None
        | None => ret (Some (ResumePlaceCall remoteId))
        end
    end.

(** The [try] block of the peer's [call] handler. *)
Definition answer_try (incomingCall : MediaConnection)
           (acquire : M MediaStream) : M unit :=
  try_catch
    (stream <- acquire ;;
     observeMicLevel ;;
     call_answer incomingCall stream ;;
     registerCallHandlers incomingCall)
    (fun err =>
       updateStatus error
         (message_or (lit "Unable to answer incoming call.") err)).

(** The peer's [call] handler up to the microphone promise. *)
Definition onPeerCall_begin (incomingCall : MediaConnection)
  : M (option Continuation) :=
  updateStatus incoming
    (lit "Call incoming from " ++ conn_peer incomingCall ++ lit ".") ;;
  held <- ensureLocalStream_begin ;;
  match held with
  | Some stream => answer_try incomingCall (ret stream) ;; ret None
  | None => ret (Some (ResumeAnswer incomingCall))
  end.

(** A parked async function goes on once the promise settles. *)
Definition resume (k : Continuation) : M unit :=
  match k with
  | ResumePlaceCall remoteId => placeCall_try remoteId ensureLocalStream_settled
  | ResumeAnswer incomingCall => answer_try incomingCall ensureLocalStream_settled
  end.

(** An async function taken to its end, its promise settling at once. *)
Definition to_completion (begin : M (option Continuation)) : M unit :=
  parked <- begin ;;
  when_some parked resume.

Definition placeCall (remoteId : jsstring) : M unit :=
  to_completion (placeCall_begin remoteId).

Definition onPeerCall (incomingCall : MediaConnection) : M unit :=
  to_completion (onPeerCall_begin incomingCall).

(** The handlers [registerCallHandlers] installs on [call]. *)
Definition onCallStream (call : MediaConnection) (remoteStream : MediaStream)
  : M unit :=
  remoteAudio <- read_ref remoteAudioRef ;;
  when_some remoteAudio (fun _ =>
    write_ref (with_remoteAudioRef (Some {| srcObject := Some remoteStream |}))) ;;
  updateStatus in_call (lit "Connected with " ++ conn_peer call ++ lit ".").

Definition onCallClose : M unit :=
  updateStatus ready (lit "Call ended.") ;;
  destroyCall.

Definition onCallError (err : value) : M unit :=
  updateStatus error (message_or (lit "Call error occurred.") err) ;;
  destroyCall.

(** The effect body once the dynamic import has resolved. *)
Definition onLoaded (raw : jsstring) : M unit :=
  let id := createAgentId raw in
  emit (NewPeer id) ;;
  write_ref (with_peerRef (Some {| peer_id := id |})).

Definition onPeerOpen (id : jsstring) : M unit :=
  fun w =>
    if isMounted w then
      (setLocalId id ;;
       updateStatus ready (lit "Share your agent ID or dial a peer to connect.")) w
    else skip w.

Definition onPeerDisconnected : M unit :=
  updateStatus error
    (lit "Connection lost. Attempting to reconnect" ++ ellipsis) ;;
  emit PeerReconnect.

Definition onPeerError (err : value) : M unit :=
  updateStatus error (message_or (lit "Unexpected peer error.") err).

(** The effect's cleanup. *)
Definition cleanup : M unit :=
  (fun w => (Returned tt, with_isMounted false w)) ;;
  destroyCall ;;
  peer <- read_ref peerRef ;;
  when_some peer (fun _ => emit PeerDestroy) ;;
  write_ref (with_peerRef None).

(** [handleCopyId]; its one [await] settles within the step. *)
Definition handleCopyId : M unit :=
  id <- read_state localId ;;
  if negb (truthy id) then skip
  else
    try_catch
      (emit (ClipboardWrite id) ;;
       match env_clipboard env with
       | Some e => throw e
       | None => setIsCopying true ;; emit SetTimeoutCopy
       end)
      (fun err =>
         updateStatus error
           (message_or (lit "Unable to copy ID to clipboard.") err)).

End Handlers.

(** ** Reading the log *)

Definition remove_frame (handle : Z) (l : list (Z * AnalyserNode))
  : list (Z * AnalyserNode) :=
  filter (fun p => negb (fst p =? handle)%Z) l.

(** The animation-frame callbacks scheduled and neither run nor cancelled,
    each with the analyser its [tick] closes over. *)
Fixpoint pending_frames (l : list Effect) : list (Z * AnalyserNode) :=
  match l with
  | [] => []
  | RequestAnimationFrame h a :: past => (h, a) :: pending_frames past
  | CancelAnimationFrame h :: past => remove_frame h (pending_frames past)
  | FrameRun h :: past => remove_frame h (pending_frames past)
  | _ :: past => pending_frames past
  end.

Definition find_frame (handle : Z) (l : list (Z * AnalyserNode))
  : option AnalyserNode :=
  match find (fun p => (fst p =? handle)%Z) l with
  | Some p => Some (snd p)
  | None => None
  end.

Definition add_call (c : MediaConnection) (l : list MediaConnection)
  : list MediaConnection :=
  if existsb (same_call c) l then l else c :: l.

Definition remove_call (c : MediaConnection) (l : list MediaConnection)
  : list MediaConnection :=
  filter (fun d => negb (same_call c d)) l.

(** The call handles on which handlers were installed and [close] has not
    been called since: the live subscriptions. *)
Fixpoint subscribed (l : list Effect) : list MediaConnection :=
  match l with
  | [] => []
  | CallOn c _ :: past => add_call c (subscribed past)
  | CallClose c :: past => remove_call c (subscribed past)
  | _ :: past => subscribed past
  end.

(** Handlers were installed on [c] at some time (they are never removed). *)
Definition has_handlers (c : MediaConnection) (l : list Effect) : bool :=
  existsb (fun e => match e with
                    | CallOn d _ => same_call c d
                    | _ => false
                    end) l.

Definition peer_created (l : list Effect) : bool :=
  existsb (fun e => match e with NewPeer _ => true | _ => false end) l.

(** ** The event loop *)

Inductive Event : Type :=
| EvLoaded (raw : jsstring)                 (* the dynamic import resolves *)
| EvPeerOpen (id : jsstring)
| EvPeerCall (incomingCall : MediaConnection)
| EvPeerDisconnected
| EvPeerError (err : value)
| EvCallStream (call : MediaConnection) (remoteStream : MediaStream)
| EvCallClose (call : MediaConnection)
| EvCallError (call : MediaConnection) (err : value)
| EvMediaSettled (n : nat)                  (* the n-th parked function goes on *)
| EvFrame (handle : Z)                      (* an animation frame arrives *)
| EvInput (text : jsstring)                 (* [onChange] of the peer-ID field *)
| EvClickCall
| EvClickHangUp
| EvClickCopy
| EvCopyTimeout
| EvUnmount.

Fixpoint remove_nth {A : Type} (n : nat) (l : list A) : list A :=
  match n, l with
  | _, [] => []
  | O, _ :: r => r
  | S m, a :: r => a :: remove_nth m r
  end.

(** Runs an async function up to its first parking point. *)
Definition start (begin : M (option Continuation)) (w : World) : World :=
  match begin w with
  | (Returned (Some k), w') => with_awaiting (awaiting w' ++ [k]) w'
  | (_, w') => w'
  end.

(** One turn of the event loop; [None] when the event cannot occur in [w]. *)
Definition step (env : Env) (ev : Event) (w : World) : option World :=
  match ev with
  | EvLoaded raw =>
      if peer_created (log w) then None else Some (run (onLoaded raw) w)
  | EvPeerOpen id =>
      if peer_created (log w) then Some (run (onPeerOpen id) w) else None
  | EvPeerCall incomingCall =>
      if peer_created (log w)
      then Some (start (onPeerCall_begin env incomingCall) w)
      else None
  | EvPeerDisconnected =>
      if peer_created (log w) then Some (run onPeerDisconnected w) else None
  | EvPeerError err =>
      if peer_created (log w) then Some (run (onPeerError err) w) else None
  | EvCallStream call remoteStream =>
      if has_handlers call (log w)
      then Some (run (onCallStream call remoteStream) w)
      else None
  | EvCallClose call =>
      if has_handlers call (log w) then Some (run onCallClose w) else None
  | EvCallError call err =>
      if has_handlers call (log w) then Some (run (onCallError err) w) else None
  | EvMediaSettled n =>
      match nth_error (awaiting w) n with
      | Some k =>
          Some (run (resume env k) (with_awaiting (remove_nth n (awaiting w)) w))
      | None => None
      end
  | EvFrame handle =>
      match find_frame handle (pending_frames (log w)) with
      | Some analyser =>
          Some (run (emit (FrameRun handle) ;; tick env analyser) w)
      | None => None
      end
  | EvInput text => Some (run (write_state (with_remoteId text)) w)
  | EvClickCall =>
      Some (start (placeCall_begin env (remoteId (state w))) w)
  | EvClickHangUp => Some (run endCall w)
  | EvClickCopy => Some (run (handleCopyId env) w)
  | EvCopyTimeout => Some (run (setIsCopying false) w)
  | EvUnmount => Some (run cleanup w)
  end.

(** The world at first render: the two audio elements are mounted, nothing
    else is held. *)
Definition initial : World :=
  {| refs := {| remoteAudioRef := Some {| srcObject := None |};
                localAudioRef := Some {| srcObject := None |};
                peerRef := None;
                callRef := None;
                localStreamRef := None;
                analyserRef := None;
                audioContextRef := None;
                animationFrameRef := None |};
     state := {| localId := [];
                 remoteId := [];
                 status := initializing;
                 statusMessage := lit "Loading agent" ++ ellipsis;
                 isCopying := false;
                 micLevel := 0 |};
     isMounted := true;
     log := [];
     awaiting := [];
     lastFrame := 0;
     lastObject := 0 |}.

Inductive reachable : World -> Prop :=
| reachable_initial : reachable initial
| reachable_step (env : Env) (ev : Event) (w w' : World) :
    reachable w -> step env ev w = Some w' -> reachable w'.

(** A run of the event loop from [w]. *)
Fixpoint steps (evs : list (Env * Event)) (w : World) : option World :=
  match evs with
  | [] => Some w
  | (env, ev) :: rest =>
      match step env ev w with
      | Some w' => steps rest w'
      | None => None
      end
  end.

(** ** Vocabulary of the properties *)

(** The meter's readout, [Math.min(Math.round(micLevel / 1.5), 100)]. *)
Definition mic_activity (level : Z) : Z := Z.min (round_div (2 * level) 3) 100.

(** A handler keeps [P]. *)
Definition preserves {A : Type} (P : World -> Prop) (m : M A) : Prop :=
  forall w, P w -> P (snd (m w)).

(** In the chronological list [h], every entry satisfying [Q] comes after
    an entry satisfying [P]. *)
Definition preceded_by (P Q : Effect -> bool) (h : list Effect) : Prop :=
  forall before e after,
    h = before ++ e :: after -> Q e = true -> existsb P before = true.

(** The same, as a scan of [h] that remembers whether [P] was seen. *)
Fixpoint guarded (P Q : Effect -> bool) (seen : bool) (h : list Effect) : bool :=
  match h with
  | [] => true
  | e :: rest => (negb (Q e) || seen) && guarded P Q (seen || P e) rest
  end.

Definition is_SetStatus (s : CallStatus) (e : Effect) : bool :=
  match e with
  | SetStatus s' => CallStatus_eqb s s'
  | _ => false
  end.

Definition is_PeerCall (e : Effect) : bool :=
  match e with
  | PeerCall _ _ => true
  | _ => false
  end.

Definition is_CallAnswer (e : Effect) : bool :=
  match e with
  | CallAnswer _ _ => true
  | _ => false
  end.

Definition is_CallClose (e : Effect) : bool :=
  match e with
  | CallClose _ => true
  | _ => false
  end.

Definition is_GetUserMedia (e : Effect) : bool :=
  match e with
  | GetUserMedia => true
  | _ => false
  end.

(** At every moment of the logged past at most one call handle is
    subscribed. *)
Fixpoint one_call_throughout (l : list Effect) : Prop :=
  match l with
  | [] => True
  | _ :: past => length (subscribed l) <= 1 /\ one_call_throughout past
  end.

(** The subscribed handle, if any, is the one in [callRef]. *)
Definition subscribed_is_callRef (w : World) : Prop :=
  forall c, In c (subscribed (log w)) ->
    exists d, callRef (refs w) = Some d /\ same_call c d = true.

Definition call_inv (w : World) : Prop :=
  one_call_throughout (log w) /\ length (subscribed (log w)) <= 1 /\
  subscribed_is_callRef w.

(** At every moment of the logged past at most one animation-frame callback
    is outstanding. *)
Fixpoint one_frame_throughout (l : list Effect) : Prop :=
  match l with
  | [] => True
  | _ :: past => length (pending_frames l) <= 1 /\ one_frame_throughout past
  end.

(** The outstanding callback, if any, is the one [animationFrameRef] names;
    handles are positive and never above the last one issued. *)
Definition frame_inv (w : World) : Prop :=
  one_frame_throughout (log w) /\
  (0 <= lastFrame w)%Z /\
  (pending_frames (log w) = [] \/
   exists h a, pending_frames (log w) = [(h, a)] /\
               animationFrameRef (refs w) = Some h /\ (0 < h)%Z).

(** [observeMicLevel] called once per environment of the list, in a row. *)
Fixpoint observe_repeatedly (envs : list Env) : M unit :=
  match envs with
  | [] => skip
  | env :: rest => observeMicLevel env ;; observe_repeatedly rest
  end.

Definition optional {A : Type} (o : option A) (f : A -> Effect) : list Effect :=
  match o with
  | Some a => [f a]
  | None => []
  end.

(** What [destroyCall] releases, in order, given the refs it finds. *)
Definition released (r : Refs) : list Effect :=
  optional (callRef r) CallClose ++
  optional (localStreamRef r) StopTracks ++
  optional (audioContextRef r) CloseAudioContext ++
  optional (analyserRef r) DisconnectAnalyser ++
  match animationFrameRef r with
  | Some h => if truthy_number h then [CancelAnimationFrame h] else []
  | None => []
  end.

(** The refs [destroyCall] leaves. *)
Definition torn_down (r : Refs) : Refs :=
  {| remoteAudioRef := match remoteAudioRef r with
                       | Some _ => Some {| srcObject := None |}
                       | None => None
                       end;
     localAudioRef := localAudioRef r;
     peerRef := peerRef r;
     callRef := None;
     localStreamRef := None;
     analyserRef := None;
     audioContextRef := None;
     animationFrameRef := match animationFrameRef r with
                          | Some h => if truthy_number h then None else Some h
                          | None => None
                          end |}.

Definition is_CallOn (e : Effect) : bool :=
  match e with
  | CallOn _ _ => true
  | _ => false
  end.

(** The status is not [in_call]. *)
Definition idle (w : World) : Prop := status (state w) <> in_call.

(** A value a [Uint8Array] can hold. *)
Definition is_byte (v : Z) : Prop := (0 <= v <= 255)%Z.

(** ** Scenarios *)

Definition bob_call : MediaConnection := {| conn_id := 1; conn_peer := lit "bob" |}.

Definition carol_call : MediaConnection :=
  {| conn_id := 2; conn_peer := lit "carol" |}.

Definition microphone : MediaStream := {| stream_id := 7 |}.

(** Everything works; the microphone is as loud as it gets. *)
Definition env_ok : Env :=
  {| env_getUserMedia := inl microphone;
     env_AudioContextCtor := true;
     env_frequencyData := repeat xff 128;
     env_peer_call := inl bob_call;
     env_answer := None;
     env_clipboard := None |}.

(** A browser without [AudioContext]. *)
Definition env_no_AudioContext : Env :=
  {| env_getUserMedia := inl microphone;
     env_AudioContextCtor := false;
     env_frequencyData := [];
     env_peer_call := inl bob_call;
     env_answer := None;
     env_clipboard := None |}.

(** The user refuses the microphone. *)
Definition env_denied : Env :=
  {| env_getUserMedia := inr (ErrorObj (lit "Permission denied"));
     env_AudioContextCtor := true;
     env_frequencyData := [];
     env_peer_call := inl bob_call;
     env_answer := None;
     env_clipboard := None |}.

(** The world a run of the event loop from the first render leads to. *)
Definition after (evs : list (Env * Event)) : World :=
  match steps evs initial with
  | Some w => w
  | None => initial
  end.

Definition dial_bob (env : Env) : list (Env * Event) :=
  [(env, EvLoaded (lit "0123456789abcdef"));
   (env, EvPeerOpen (lit "agentic-0123-4567"));
   (env, EvInput (lit " bob "));
   (env, EvClickCall);
   (env, EvMediaSettled 0)].

(** The agent is dialling bob: stream, analyser, frame and call are held. *)
Definition dialing : World := after (dial_bob env_ok).

(** The dial failed for want of an [AudioContext]: the stream is held, no
    call is. *)
Definition failed_dial : World := after (dial_bob env_no_AudioContext).

(** ** More of the page: identity, buttons, releases *)

(** [s.replace(/-/g, "")] *)
Definition remove_hyphens (s : jsstring) : jsstring :=
  filter (fun c => negb (c =? 45)%N) s.

(** The [raw] string of [createAgentId]: the UUID without its hyphens when
    [crypto.randomUUID] exists, otherwise [Date.now().toString(36)] followed
    by [Math.random().toString(36).slice(2, 10)]. *)
Definition raw_id (randomUUID : option jsstring) (now36 random36 : jsstring)
  : jsstring :=
  match randomUUID with
  | Some uuid => remove_hyphens uuid
  | None => now36 ++ slice 2 10 random36
  end.

(** [disabled] of the three buttons. *)
Definition copyDisabled (s : State) : bool := negb (truthy (localId s)).

Definition callDisabled (s : State) : bool :=
  negb (isReady (status s)) || negb (truthy (trim (remoteId s))).

Definition hangUpDisabled (s : State) : bool := negb (isCallActive (status s)).

(** A log entry that gives a call or media resource back. *)
Definition is_release (e : Effect) : bool :=
  match e with
  | CallClose _ | StopTracks _ | CloseAudioContext _ | DisconnectAnalyser _
  | CancelAnimationFrame _ => true
  | _ => false
  end.

Definition is_StopTracks (e : Effect) : bool :=
  match e with
  | StopTracks _ => true
  | _ => false
  end.

(** The audio resources hang together: an analyser (always of 128 bins) is
    held only with its context and stream, a context only with a stream, a
    frame is outstanding only while an analyser is held and its callback
    reads an analyser of 128 bins, and the mic level is a byte, 0 when no
    analyser is held. *)
Definition media_inv (w : World) : Prop :=
  (forall a, analyserRef (refs w) = Some a ->
     fftSize a = 256%Z /\
     localStreamRef (refs w) <> None /\ audioContextRef (refs w) <> None) /\
  (audioContextRef (refs w) <> None -> localStreamRef (refs w) <> None) /\
  (forall h a, pending_frames (log w) = [(h, a)] ->
     fftSize a = 256%Z /\ analyserRef (refs w) <> None) /\
  (0 <= micLevel (state w) <= 255)%Z /\
  (analyserRef (refs w) = None -> micLevel (state w) = 0%Z).

(** What the meter prints: nothing ("Mic idle") unless the level is
    positive, else the percentage [mic_activity]. *)
Definition mic_readout (level : Z) : option Z :=
  if (0 <? level)%Z then Some (mic_activity level) else None.

(** The events the user causes, and whether the page lets them through. *)
Definition is_user_event (ev : Event) : bool :=
  match ev with
  | EvInput _ | EvClickCall | EvClickHangUp | EvClickCopy | EvCopyTimeout => true
  | _ => false
  end.

Definition permitted (ev : Event) (s : State) : bool :=
  match ev with
  | EvClickCall => negb (callDisabled s)
  | EvClickHangUp => negb (hangUpDisabled s)
  | EvClickCopy => negb (copyDisabled s)
  | _ => true
  end.

(** The five ways a call session is torn down. *)
Inductive Teardown : Type :=
| ByDestroyCall
| ByEndCall
| ByCallClose
| ByCallError (err : value)
| ByCleanup.

Definition teardown (t : Teardown) : M unit :=
  match t with
  | ByDestroyCall => destroyCall
  | ByEndCall => endCall
  | ByCallClose => onCallClose
  | ByCallError err => onCallError err
  | ByCleanup => cleanup
  end.

(** ** More scenarios *)

Definition headset : MediaStream := {| stream_id := 8 |}.

(** The peer is created and open; nothing else has happened. *)
Definition loaded : World :=
  after [(env_ok, EvLoaded (lit "0123456789abcdef"));
         (env_ok, EvPeerOpen (lit "agentic-0123-4567"))].

(** A second microphone stream arrives. *)
Definition env_headset : Env :=
  {| env_getUserMedia := inl headset;
     env_AudioContextCtor := true;
     env_frequencyData := [];
     env_peer_call := inl carol_call;
     env_answer := None;
     env_clipboard := None |}.

(** The transport refuses to originate the call. *)
Definition env_call_throws : Env :=
  {| env_getUserMedia := inl microphone;
     env_AudioContextCtor := true;
     env_frequencyData := [];
     env_peer_call := inr (ErrorObj (lit "Cannot connect to new Peer"));
     env_answer := None;
     env_clipboard := None |}.

(** [answer] throws. *)
Definition env_answer_throws : Env :=
  {| env_getUserMedia := inl microphone;
     env_AudioContextCtor := true;
     env_frequencyData := [];
     env_peer_call := inl bob_call;
     env_answer := Some Other;
     env_clipboard := None |}.

(** While dialling bob, carol called and was answered: bob's handle still
    has its handlers, carol's is the one in [callRef]. *)
Definition two_calls : World :=
  after (dial_bob env_ok ++ [(env_ok, EvPeerCall carol_call)]).

(** ** Facts about [trim] *)

Lemma trimStart_split (s : jsstring) :
  exists pre, s = pre ++ trimStart s /\ forallb is_white pre = true.
Proof.
  induction s as [|c r [pre [Heq Hw]]]; [exists []; auto|].
  cbn [trimStart]. destruct (is_white c) eqn:Hc.
  - exists (c :: pre). cbn. rewrite Hc, Hw, <- Heq. auto.
  - exists []. auto.
Qed.

Lemma trimStart_head (s : jsstring) (c : N) (r : jsstring) :
  trimStart s = c :: r -> is_white c = false.
Proof.
  induction s as [|d t IH]; cbn [trimStart]; [discriminate|].
  destruct (is_white d) eqn:Hd; [exact IH|].
  intros H. injection H as -> _. exact Hd.
Qed.

Lemma trimStart_nil_iff (s : jsstring) :
  trimStart s = [] <-> forallb is_white s = true.
Proof.
  induction s as [|c r IH]; cbn [trimStart forallb]; [tauto|].
  destruct (is_white c); cbn; [exact IH|].
  split; discriminate.
Qed.

Lemma forallb_rev (f : N -> bool) (l : list N) :
  forallb f (rev l) = forallb f l.
Proof.
  induction l as [|a l IH]; [reflexivity|].
  cbn [rev forallb]. rewrite forallb_app, IH. cbn. rewrite andb_true_r.
  apply andb_comm.
Qed.

Lemma trim_nil_iff (s : jsstring) :
  trim s = [] <-> forallb is_white s = true.
Proof.
  unfold trim, trimEnd. rewrite <- trimStart_nil_iff.
  split; intros H.
  - destruct (trimStart s) as [|c t] eqn:Ht; [reflexivity|exfalso].
    apply (f_equal (@rev N)) in H. rewrite rev_involutive in H. cbn [rev] in H.
    apply trimStart_nil_iff in H. rewrite forallb_app in H. cbn [forallb] in H.
    apply trimStart_head in Ht. rewrite Ht, andb_false_r in H. discriminate.
  - rewrite H. reflexivity.
Qed.

Lemma truthy_trim_false (s : jsstring) :
  truthy (trim s) = false <-> forallb is_white s = true.
Proof.
  rewrite <- trim_nil_iff. destruct (trim s); cbn; split; congruence.
Qed.

Lemma truthy_trim_true (s : jsstring) :
  truthy (trim s) = true <-> existsb (fun c => negb (is_white c)) s = true.
Proof.
  split; intros H.
  - destruct (existsb (fun c => negb (is_white c)) s) eqn:He; [reflexivity|].
    assert (Hall : forallb is_white s = true).
    { clear H. induction s as [|c r IH]; [reflexivity|].
      cbn in He |- *. apply orb_false_iff in He as [Hc Hr].
      apply negb_false_iff in Hc. rewrite Hc. cbn. exact (IH Hr). }
    apply truthy_trim_false in Hall. congruence.
  - destruct (truthy (trim s)) eqn:Ht; [reflexivity|].
    apply truthy_trim_false in Ht.
    apply existsb_exists in H as [c [Hin Hc]].
    rewrite forallb_forall in Ht. rewrite (Ht c Hin) in Hc. discriminate.
Qed.

(** [trim s] is [s] without a white prefix and a white suffix, and begins
    and ends with a character that is not white. *)
Lemma trim_spec (s : jsstring) :
  (exists pre post,
      s = pre ++ trim s ++ post /\
      forallb is_white pre = true /\ forallb is_white post = true) /\
  (forall c r, trim s = c :: r -> is_white c = false) /\
  (forall r c, trim s = r ++ [c] -> is_white c = false).
Proof.
  unfold trim, trimEnd.
  destruct (trimStart_split s) as [pre [Hs Hpre]].
  destruct (trimStart_split (rev (trimStart s))) as [pre2 [Ht Hpre2]].
  set (t := trimStart s) in *. set (u := trimStart (rev t)) in *.
  assert (Ht' : t = rev u ++ rev pre2).
  { rewrite <- rev_app_distr, <- Ht, rev_involutive. reflexivity. }
  assert (Hlast : forall r c, rev u = r ++ [c] -> is_white c = false).
  { intros r c H. apply (f_equal (@rev N)) in H.
    rewrite rev_involutive, rev_app_distr in H. cbn in H.
    exact (trimStart_head _ _ _ H). }
  split; [|split].
  - exists pre, (rev pre2). rewrite forallb_rev. rewrite <- Ht'. auto.
  - intros c r H. rewrite H in Ht'. cbn in Ht'.
    exact (trimStart_head s _ _ Ht').
  - exact Hlast.
Qed.

(** ** Reading the log between two worlds *)

Lemma effects_between_added (w w' : World) (added : list Effect) :
  log w' = added ++ log w -> effects_between w w' = rev added.
Proof.
  intros H. unfold effects_between. rewrite H, length_app.
  replace (length added + length (log w) - length (log w)) with (length added)
    by lia.
  rewrite firstn_app, firstn_all, Nat.sub_diag. cbn. rewrite app_nil_r.
  reflexivity.
Qed.

Arguments truthy_number : simpl never.
Arguments effects_between : simpl never.
Arguments lit : simpl never.
Arguments trim : simpl never.
Arguments sample : simpl never.

(** Splits a world (and an environment) into its cells. *)
Ltac open_world w :=
  destruct w as [[? ? ? ? ? ? ? ?] [? ? ? ? ? ?] ? ? ? ? ?].

Ltac open_env env := destruct env as [? ? ? ? ? ?].

(** The test on which the evaluation of [t] waits. *)
Ltac stuck t :=
  lazymatch t with
  | match ?x with _ => _ end => stuck x
  | ?f ?a =>
      lazymatch f with
      | context [match _ with _ => _ end] => stuck f
      | _ => t
      end
  | _ => t
  end.

(** Follows the branches a handler takes, in the order it takes them. *)
Ltac branch :=
  match goal with
  | |- context [match ?x with _ => _ end] =>
      let s := stuck x in
      first [ is_var s; destruct s
            | match type of s with bool => destruct s eqn:? end ]
  end.

(** Unfolds the monad's plumbing, leaving the cells and the tests. *)
Ltac plumbing :=
  cbv beta iota delta
    [bind ret throw try_catch when_some skip emit read_ref write_ref
     read_state write_state run outcome start
     setLocalId setStatus setStatusMessage setIsCopying setMicLevel
     updateStatus requestAnimationFrame cancelAnimationFrame fresh_object
     new_AudioContext createAnalyser fst snd];
  cbn.

Ltac branches := plumbing; repeat (branch; plumbing).

(** The log entries a concrete later log [l'] has on top of [l]. *)
Ltac added_on l' l :=
  match l' with
  | l => constr:(@nil Effect)
  | ?e :: ?r => let d := added_on r l in constr:(e :: d)
  end.

Ltac read_effects :=
  repeat match goal with
  | |- context [effects_between ?w ?w'] =>
      let l := eval cbn in (log w) in
      let l' := eval cbn in (log w') in
      let d := added_on l' l in
      rewrite (effects_between_added w w' d eq_refl); cbn [rev app]
  end.

(** ** [destroyCall] in closed form *)

Lemma destroyCall_run (w : World) :
  destroyCall w =
  (Returned tt,
   {| refs := torn_down (refs w);
      state := with_micLevel 0 (state w);
      isMounted := isMounted w;
      log := SetMicLevel 0 :: rev (released (refs w)) ++ log w;
      awaiting := awaiting w;
      lastFrame := lastFrame w;
      lastObject := lastObject w |}).
Proof.
  open_world w. unfold destroyCall, torn_down, released.
  branches; reflexivity.
Qed.

Lemma released_torn_down (r : Refs) : released (torn_down r) = [].
Proof.
  destruct r as [? ? ? ? ? ? ? [h|]]; unfold released, torn_down; cbn;
    [destruct (truthy_number h) eqn:E; cbn; [|rewrite E]|]; reflexivity.
Qed.

Lemma torn_down_twice (r : Refs) : torn_down (torn_down r) = torn_down r.
Proof.
  destruct r as [[?|] ? ? ? ? ? ? [h|]]; unfold torn_down; cbn;
    try (destruct (truthy_number h) eqn:E; cbn; [|rewrite E]); reflexivity.
Qed.

(** ** Teardown *)

Lemma In_released_once (r : Refs) : NoDup (released r).
Proof.
  destruct r as [? ? ? [c|] [s|] [a|] [x|] [h|]]; unfold released; cbn;
    try destruct (truthy_number h); cbn;
    repeat (constructor; [cbn; intuition discriminate|]); constructor.
Qed.



(** ** Hanging up *)

Lemma endCall_run (w : World) :
  endCall w =
  (Returned tt,
   {| refs := torn_down (refs w);
      state := with_statusMessage (lit "Call ended.")
                 (with_status ready (with_micLevel 0 (state w)));
      isMounted := isMounted w;
      log := SetStatusMessage (lit "Call ended.") :: SetStatus ready ::
             SetMicLevel 0 :: rev (released (refs w)) ++ log w;
      awaiting := awaiting w;
      lastFrame := lastFrame w;
      lastObject := lastObject w |}).
Proof.
  open_world w. unfold endCall, destroyCall, torn_down, released.
  branches; reflexivity.
Qed.

Lemma endCall_effects (w : World) :
  effects_between w (run endCall w) =
  released (refs w) ++
  [SetMicLevel 0; SetStatus ready; SetStatusMessage (lit "Call ended.")].
Proof.
  unfold run. rewrite endCall_run. cbn [snd].
  rewrite (effects_between_added _ _
             (SetStatusMessage (lit "Call ended.") :: SetStatus ready ::
              SetMicLevel 0 :: rev (released (refs w)))) by reflexivity.
  cbn [rev]. rewrite rev_involutive, <- !app_assoc. reflexivity.
Qed.

(** C6, as amended.  With no call handle held, [endCall] returns normally and
    closes no call handle, but it is not a no-op: it still runs the teardown
    (whatever stream, audio context, analyser or frame is held is released
    and the mic level reset to 0) and sets the status to [ready] with the
    message "Call ended.". *)
Theorem endCall_without_session (w : World) :
  callRef (refs w) = None ->
  outcome endCall w = Returned tt /\
  effects_between w (run endCall w) =
    released (refs w) ++
    [SetMicLevel 0; SetStatus ready; SetStatusMessage (lit "Call ended.")] /\
  existsb is_CallClose (effects_between w (run endCall w)) = false /\
  refs (run endCall w) = torn_down (refs w) /\
  status (state (run endCall w)) = ready /\
  statusMessage (state (run endCall w)) = lit "Call ended." /\
  micLevel (state (run endCall w)) = 0%Z.
Proof.
  intros Hc. rewrite endCall_effects. unfold run, outcome.
  rewrite endCall_run. cbn [fst snd refs state status statusMessage micLevel
                              with_statusMessage with_status with_micLevel].
  repeat split.
  unfold released. rewrite Hc.
  destruct (refs w) as [? ? ? ? [s|] [a|] [x|] [h|]]; cbn;
    try destruct (truthy_number h); reflexivity.
Qed.

Lemma endCall_without_session_witness :
  status (state (run endCall initial)) = ready /\
  effects_between initial (run endCall initial) =
    [SetMicLevel 0; SetStatus ready; SetStatusMessage (lit "Call ended.")].
Proof.
  destruct (endCall_without_session initial eq_refl)
    as [_ [He [_ [_ [Hs _]]]]].
  split; [exact Hs | exact He].
Defined.

(** C6 as stated fails: with no call handle held, [endCall] moves the status
    from [initializing] to [ready] and replaces the message, and it stops a
    stream that is held. *)
Lemma endCall_without_session_counterexample :
  (callRef (refs initial) = None /\
   status (state initial) = initializing /\
   status (state (run endCall initial)) = ready /\
   statusMessage (state (run endCall initial)) <> statusMessage (state initial)) /\
  (callRef (refs failed_dial) = None /\
   localStreamRef (refs failed_dial) = Some {| stream_id := 7 |} /\
   localStreamRef (refs (run endCall failed_dial)) = None /\
   effects_between failed_dial (run endCall failed_dial) =
     [StopTracks {| stream_id := 7 |}; SetMicLevel 0; SetStatus ready;
      SetStatusMessage (lit "Call ended.")]).
Proof.
  repeat split; vm_compute; (reflexivity || discriminate).
Qed.

(** ** Error events *)

Lemma onCallError_run (err : value) (w : World) :
  onCallError err w =
  (Returned tt,
   {| refs := torn_down (refs w);
      state := with_micLevel 0
                 (with_statusMessage (message_or (lit "Call error occurred.") err)
                    (with_status error (state w)));
      isMounted := isMounted w;
      log := SetMicLevel 0 :: rev (released (refs w)) ++
             SetStatusMessage (message_or (lit "Call error occurred.") err) ::
             SetStatus error :: log w;
      awaiting := awaiting w;
      lastFrame := lastFrame w;
      lastObject := lastObject w |}).
Proof.
  open_world w. unfold onCallError, destroyCall, torn_down, released.
  branches; reflexivity.
Qed.




(** ** The mic level *)

Lemma write_bytes_length (data : list Z) (read : list byte) :
  length (write_bytes data read) = length data.
Proof.
  revert read. induction data as [|d data IH]; intros [|b read]; cbn; auto.
Qed.

Lemma byte_value_is_byte (b : byte) : is_byte (Z.of_N (Byte.to_N b)).
Proof.
  unfold is_byte. pose proof (Byte.to_N_bounded b). lia.
Qed.

Lemma write_bytes_bytes (data : list Z) (read : list byte) :
  Forall is_byte data -> Forall is_byte (write_bytes data read).
Proof.
  revert read. induction data as [|d data IH]; intros [|b read] H; cbn; auto.
  inversion H; subst. constructor; [apply byte_value_is_byte | auto].
Qed.

Lemma write_bytes_full (data : list Z) (read : list byte) :
  length read = length data ->
  write_bytes data read = map (fun b => Z.of_N (Byte.to_N b)) read.
Proof.
  revert read. induction data as [|d data IH]; intros [|b read] H; cbn in *;
    try discriminate; auto.
  f_equal. apply IH. lia.
Qed.

Lemma new_Uint8Array_bytes (n : Z) : Forall is_byte (new_Uint8Array n).
Proof.
  unfold new_Uint8Array. induction (Z.to_nat n); cbn; constructor; auto.
  unfold is_byte. lia.
Qed.

Lemma fold_sum_shift (data : list Z) (acc : Z) :
  fold_left (fun a v => (a + v)%Z) data acc =
  (acc + fold_left (fun a v => (a + v)%Z) data 0)%Z.
Proof.
  revert acc. induction data as [|d data IH]; intros acc; cbn; [lia|].
  rewrite (IH (acc + d)%Z), (IH d). lia.
Qed.

Lemma reduce_sum_cons (d : Z) (data : list Z) :
  reduce_sum (d :: data) = (d + reduce_sum data)%Z.
Proof.
  unfold reduce_sum. cbn. apply fold_sum_shift.
Qed.

Lemma reduce_sum_bounds (data : list Z) :
  Forall is_byte data ->
  (0 <= reduce_sum data <= 255 * Z.of_nat (length data))%Z.
Proof.
  induction 1 as [|d data Hd _ IH]; [cbn; lia|].
  rewrite reduce_sum_cons. cbn [length]. unfold is_byte in Hd. lia.
Qed.

(** [round_div s n] is the integer nearest to [s / n], halves going up. *)
Lemma round_div_nearest (s n : Z) :
  (0 < n)%Z ->
  (2 * s - n < 2 * n * round_div s n <= 2 * s + n)%Z.
Proof.
  intros Hn. unfold round_div.
  pose proof (Z.div_mod (2 * s + n) (2 * n) ltac:(lia)).
  pose proof (Z.mod_pos_bound (2 * s + n) (2 * n) ltac:(lia)).
  lia.
Qed.

Lemma round_div_bounds (s n k : Z) :
  (0 < n)%Z -> (0 <= s <= k * n)%Z -> (0 <= round_div s n <= k)%Z.
Proof.
  intros Hn Hs. pose proof (round_div_nearest s n Hn). nia.
Qed.

Lemma sample_array (analyser : AnalyserNode) (read : list byte) :
  (0 < frequencyBinCount analyser)%Z ->
  let data := write_bytes (new_Uint8Array (frequencyBinCount analyser)) read in
  Z.of_nat (length data) = frequencyBinCount analyser /\ Forall is_byte data.
Proof.
  intros Hn. cbv zeta. split.
  - rewrite write_bytes_length. unfold new_Uint8Array. rewrite repeat_length.
    lia.
  - apply write_bytes_bytes, new_Uint8Array_bytes.
Qed.

Lemma tick_run (env : Env) (analyser : AnalyserNode) (w : World) :
  tick env analyser w =
  (Returned tt,
   {| refs := with_animationFrameRef (Some (lastFrame w + 1)%Z) (refs w);
      state := with_micLevel (sample analyser (env_frequencyData env)) (state w);
      isMounted := isMounted w;
      log := RequestAnimationFrame (lastFrame w + 1) analyser ::
             SetMicLevel (sample analyser (env_frequencyData env)) ::
             GetByteFrequencyData analyser :: log w;
      awaiting := awaiting w;
      lastFrame := (lastFrame w + 1)%Z;
      lastObject := lastObject w |}).
Proof.
  open_world w. unfold tick. plumbing. reflexivity.
Qed.

(** C9, as amended.  One [tick] makes one analyser read and publishes one
    level.  The array it reads into has [frequencyBinCount] entries, each a
    byte of the read; the level is the integer nearest to the sum of the
    entries divided by their number (a half rounds up).  The level lies in
    0..255, the range of a bin, not in 0..100: only the meter's readout
    [mic_activity], which divides by 1.5 and caps, lies in 0..100. *)
Theorem tick_publishes_rounded_mean (env : Env) (analyser : AnalyserNode)
        (w : World) :
  (0 < frequencyBinCount analyser)%Z ->
  let data :=
    write_bytes (new_Uint8Array (frequencyBinCount analyser))
                (env_frequencyData env) in
  let n := Z.of_nat (length data) in
  let w' := run (tick env analyser) w in
  let level := micLevel (state w') in
  effects_between w w' =
    [GetByteFrequencyData analyser; SetMicLevel level;
     RequestAnimationFrame (lastFrame w + 1) analyser] /\
  n = frequencyBinCount analyser /\
  (length (env_frequencyData env) = length data ->
   data = map (fun b => Z.of_N (Byte.to_N b)) (env_frequencyData env)) /\
  (2 * reduce_sum data - n < 2 * n * level <= 2 * reduce_sum data + n)%Z /\
  (0 <= level <= 255)%Z /\
  (0 <= mic_activity level <= 100)%Z.
Proof.
  intros Hn. cbv zeta.
  destruct (sample_array analyser (env_frequencyData env) Hn) as [Hlen Hbytes].
  cbv zeta in Hlen, Hbytes.
  unfold run. rewrite tick_run. cbn [snd state micLevel with_micLevel].
  pose proof (reduce_sum_bounds _ Hbytes) as Hsum.
  assert (Hlevel : (0 <= sample analyser (env_frequencyData env) <= 255)%Z).
  { unfold sample. apply round_div_bounds; lia. }
  split; [|split; [|split; [|split; [|split]]]].
  - rewrite (effects_between_added _ _
               [RequestAnimationFrame (lastFrame w + 1) analyser;
                SetMicLevel (sample analyser (env_frequencyData env));
                GetByteFrequencyData analyser]) by reflexivity.
    reflexivity.
  - exact Hlen.
  - intros Hfull. apply write_bytes_full.
    rewrite Hfull, write_bytes_length. reflexivity.
  - unfold sample. apply round_div_nearest. lia.
  - exact Hlevel.
  - unfold mic_activity.
    pose proof (round_div_bounds
                  (2 * sample analyser (env_frequencyData env)) 3 170
                  ltac:(lia) ltac:(lia)).
    lia.
Qed.

Lemma tick_publishes_rounded_mean_witness :
  (0 <= micLevel (state (run (tick env_ok {| analyser_id := 2; fftSize := 256 |})
                             initial)) <= 255)%Z.
Proof.
  apply (tick_publishes_rounded_mean env_ok {| analyser_id := 2; fftSize := 256 |}
           initial).
  reflexivity.
Defined.

(** C9 as stated fails on the range: with every bin at 255 the published
    level is 255, far above 100 (and above the 150 at which the meter is
    full).  The world is the one reached by dialling with a loud microphone. *)
Lemma tick_publishes_rounded_mean_counterexample :
  analyserRef (refs dialing) = Some {| analyser_id := 2; fftSize := 256 |} /\
  sample {| analyser_id := 2; fftSize := 256 |} (repeat xff 128) = 255%Z /\
  micLevel (state dialing) = 255%Z /\
  In (SetMicLevel 255) (log dialing) /\
  ~ (micLevel (state dialing) <= 100)%Z.
Proof.
  split; [vm_compute; reflexivity|].
  split; [vm_compute; reflexivity|].
  split; [vm_compute; reflexivity|].
  split.
  - vm_compute. auto 12.
  - vm_compute. intros H. apply H. reflexivity.
Qed.

(** ** Placing a call *)

(** C3.  For a remote identifier that is empty or all whitespace, [placeCall]
    sets the status to [error] with the message "Enter a peer ID before
    calling." and does nothing else: the two setters are the only entries it
    logs (so neither the transport's [call] nor the microphone request is
    made), no ref changes (no call handle, no stream), nothing is parked and
    the function returns.  A click on Call with such a text in the field
    does exactly that. *)
Theorem placeCall_blank_identifier (env : Env) (remoteId : jsstring) (w : World) :
  forallb is_white remoteId = true ->
  let w' := run (placeCall env remoteId) w in
  placeCall_begin env remoteId w = (Returned None, w') /\
  status (state w') = error /\
  statusMessage (state w') = lit "Enter a peer ID before calling." /\
  effects_between w w' =
    [SetStatus error; SetStatusMessage (lit "Enter a peer ID before calling.")] /\
  existsb is_PeerCall (effects_between w w') = false /\
  existsb is_GetUserMedia (effects_between w w') = false /\
  refs w' = refs w /\
  awaiting w' = awaiting w /\
  step env EvClickCall (with_state (with_remoteId remoteId (state w)) w) =
    Some (with_state (with_remoteId remoteId (state w')) w').
Proof.
  intros Hblank. apply truthy_trim_false in Hblank.
  cbv zeta. unfold step, placeCall, to_completion, placeCall_begin.
  open_world w. plumbing. rewrite Hblank. plumbing. read_effects.
  repeat split.
Qed.

Lemma placeCall_blank_identifier_witness :
  status (state (run (placeCall env_ok (lit "   ")) dialing)) = error /\
  refs (run (placeCall env_ok (lit "   ")) dialing) = refs dialing.
Proof.
  pose proof (placeCall_blank_identifier env_ok (lit "   ") dialing eq_refl)
    as [_ [Hs [_ [_ [_ [_ [Hr _]]]]]]].
  split; [exact Hs | exact Hr].
Defined.

Ltac in_cases :=
  repeat match goal with
  | H : In _ (_ :: _) |- _ => cbn [In] in H
  | H : In _ [] |- _ => destruct H
  | H : _ \/ _ |- _ => destruct H
  | H : False |- _ => destruct H
  | H : @eq Effect _ _ |- _ => first [discriminate H | injection H as ? ?; subst]
  end.

Ltac in_list := cbn [In]; repeat (first [left; reflexivity | right]).

(** Everything [placeCall] is made of, laid open. *)
Ltac open_placeCall :=
  unfold placeCall, to_completion, placeCall_begin, resume, placeCall_try,
    ensureLocalStream, ensureLocalStream_begin, ensureLocalStream_settled,
    observeMicLevel, tick, peer_call, registerCallHandlers.

Lemma guarded_sound (P Q : Effect -> bool) (h : list Effect) (seen : bool) :
  guarded P Q seen h = true ->
  forall before e after,
    h = before ++ e :: after -> Q e = true -> seen || existsb P before = true.
Proof.
  revert seen. induction h as [|x h IH]; intros seen Hg before e after Heq Hq.
  - destruct before; discriminate.
  - cbn [guarded] in Hg. apply andb_true_iff in Hg as [Hx Hrest].
    destruct before as [|b before]; cbn in Heq; injection Heq as -> ->.
    + rewrite Hq in Hx. cbn in Hx |- *. rewrite Hx. reflexivity.
    + specialize (IH _ Hrest before e after eq_refl Hq).
      cbn [existsb]. rewrite orb_assoc. exact IH.
Qed.

Lemma guarded_preceded_by (P Q : Effect -> bool) (h : list Effect) :
  guarded P Q false h = true -> preceded_by P Q h.
Proof.
  intros Hg before e after Heq Hq.
  exact (guarded_sound P Q h false Hg before e after Heq Hq).
Qed.

Ltac keep_idle :=
  intros w_; unfold idle; open_world w_; branches; intros H_;
  first [exact H_ | discriminate].

Lemma placeCall_begin_idle (env : Env) (remoteId : jsstring) :
  preserves idle (placeCall_begin env remoteId).
Proof.
  open_env env. open_placeCall. destruct (negb (truthy (trim remoteId)));
    keep_idle.
Qed.

Lemma onPeerCall_begin_idle (env : Env) (incomingCall : MediaConnection) :
  preserves idle (onPeerCall_begin env incomingCall).
Proof.
  open_env env. unfold onPeerCall_begin, answer_try, call_answer.
  open_placeCall. keep_idle.
Qed.

Lemma resume_idle (env : Env) (k : Continuation) : preserves idle (resume env k).
Proof.
  open_env env. destruct k; open_placeCall; unfold answer_try, call_answer;
    open_placeCall; keep_idle.
Qed.

Lemma teardown_idle :
  preserves idle destroyCall /\ preserves idle endCall /\
  preserves idle onCallClose /\ preserves idle cleanup /\
  (forall err, preserves idle (onCallError err)).
Proof.
  unfold onCallClose, onCallError, endCall, cleanup, destroyCall.
  repeat apply conj;
    [keep_idle | keep_idle | keep_idle | keep_idle | intros err; keep_idle].
Qed.

Lemma peer_handlers_idle :
  (forall raw, preserves idle (onLoaded raw)) /\
  (forall id, preserves idle (onPeerOpen id)) /\
  preserves idle onPeerDisconnected /\
  (forall err, preserves idle (onPeerError err)) /\
  (forall env, preserves idle (handleCopyId env)).
Proof.
  unfold onLoaded, onPeerOpen, onPeerDisconnected, onPeerError, handleCopyId.
  repeat apply conj;
    [intros raw; keep_idle | intros id; keep_idle | keep_idle
    | intros err; keep_idle | intros env; open_env env; keep_idle].
Qed.

Lemma start_idle (begin : M (option Continuation)) (w : World) :
  preserves idle begin -> idle w -> idle (start begin w).
Proof.
  intros Hb Hw. specialize (Hb w Hw). unfold start.
  destruct (begin w) as [[[k|]|e] w']; exact Hb.
Qed.

(** No handler but a call's [stream] handler makes the status [in_call]. *)
Lemma in_call_only_by_stream (env : Env) (ev : Event) (w w' : World) :
  step env ev w = Some w' ->
  status (state w') = in_call ->
  status (state w) = in_call \/
  exists call remoteStream, ev = EvCallStream call remoteStream.
Proof.
  intros Hstep Hin.
  destruct (CallStatus_eqb (status (state w)) in_call) eqn:Hw;
    [left; destruct (status (state w)); (reflexivity || discriminate)|].
  assert (Hidle : idle w) by (intros E; rewrite E in Hw; discriminate).
  destruct ev; try (right; eexists; eexists; reflexivity); exfalso;
    cbn [step] in Hstep;
    repeat match type of Hstep with
    | (if ?b then _ else _) = _ => destruct b; [|try discriminate Hstep]
    | match ?o with _ => _ end = _ => destruct o eqn:?; [|try discriminate Hstep]
    end;
    try discriminate Hstep; injection Hstep as <-; revert Hin; fold (idle);
    unfold run.
  - exact (proj1 peer_handlers_idle raw w Hidle).
  - exact (proj1 (proj2 peer_handlers_idle) id w Hidle).
  - apply start_idle; [apply onPeerCall_begin_idle | exact Hidle].
  - exact (proj1 (proj2 (proj2 peer_handlers_idle)) w Hidle).
  - exact (proj1 (proj2 (proj2 (proj2 peer_handlers_idle))) err w Hidle).
  - exact (proj1 (proj2 (proj2 teardown_idle)) w Hidle).
  - exact (proj2 (proj2 (proj2 (proj2 teardown_idle))) err w Hidle).
  - apply resume_idle. exact Hidle.
  - clear - Hidle. revert w Hidle. unfold tick. keep_idle.
  - clear - Hidle. revert w Hidle. keep_idle.
  - apply start_idle; [apply placeCall_begin_idle | exact Hidle].
  - exact (proj1 (proj2 teardown_idle) w Hidle).
  - exact (proj2 (proj2 (proj2 (proj2 peer_handlers_idle))) env w Hidle).
  - clear - Hidle. revert w Hidle. keep_idle.
  - exact (proj1 (proj2 (proj2 (proj2 teardown_idle))) w Hidle).
Qed.

(** With the peer created and the stream obtained, [placeCall] announces
    the dial and makes it; if the transport returns a handle, the handle is
    kept and the status stays [calling]. *)
Lemma placeCall_succeeds (env : Env) (remoteId : jsstring) (w : World)
      (p : Peer) (stream : MediaStream) :
  truthy (trim remoteId) = true ->
  peerRef (refs w) = Some p ->
  outcome (ensureLocalStream env) w = Returned stream ->
  let w' := run (placeCall env remoteId) w in
  In (SetStatus calling) (effects_between w w') /\
  In (SetStatusMessage (lit "Calling " ++ remoteId ++ ellipsis))
     (effects_between w w') /\
  In (PeerCall (trim remoteId) stream) (effects_between w w') /\
  (forall call, env_peer_call env = inl call ->
     status (state w') = calling /\
     statusMessage (state w') = lit "Calling " ++ remoteId ++ ellipsis /\
     callRef (refs w') = Some call).
Proof.
  intros Ht Hp Hs. cbv zeta. revert Hp Hs. open_placeCall.
  open_world w. open_env env. plumbing. rewrite Ht. plumbing.
  branches; read_effects; intros Hp Hs; try discriminate;
    injection Hs as <-;
    (split; [in_list | split; [in_list | split; [in_list |]]]);
    intros call Hcall; try discriminate; injection Hcall as <-;
    repeat split.
Qed.



(** C10.  For a remote identifier with a character that is not white, every
    [call] that [placeCall] (in one go, or resumed) makes on the transport
    carries the trimmed identifier, which is the input without a white
    prefix and a white suffix and neither begins nor ends with a white
    character, while the status message set just before is "Calling ",
    the input as typed, and an ellipsis.  With the peer created and the
    stream obtained the call is made. *)
Theorem placeCall_dials_trimmed (env : Env) (remoteId : jsstring) (w : World) :
  existsb (fun c => negb (is_white c)) remoteId = true ->
  let w' := run (placeCall env remoteId) w in
  let resumed := run (resume env (ResumePlaceCall remoteId)) w in
  (forall remote stream,
     In (PeerCall remote stream) (effects_between w w') ->
     remote = trim remoteId /\
     In (SetStatusMessage (lit "Calling " ++ remoteId ++ ellipsis))
        (effects_between w w')) /\
  (forall remote stream,
     In (PeerCall remote stream) (effects_between w resumed) ->
     remote = trim remoteId /\
     In (SetStatusMessage (lit "Calling " ++ remoteId ++ ellipsis))
        (effects_between w resumed)) /\
  (forall p stream,
     peerRef (refs w) = Some p ->
     outcome (ensureLocalStream env) w = Returned stream ->
     In (PeerCall (trim remoteId) stream) (effects_between w w') /\
     In (SetStatusMessage (lit "Calling " ++ remoteId ++ ellipsis))
        (effects_between w w')) /\
  (trim remoteId <> [] /\
   (exists pre post,
      remoteId = pre ++ trim remoteId ++ post /\
      forallb is_white pre = true /\ forallb is_white post = true) /\
   (forall c r, trim remoteId = c :: r -> is_white c = false) /\
   (forall r c, trim remoteId = r ++ [c] -> is_white c = false)).
Proof.
  intros Hnw. apply truthy_trim_true in Hnw. cbv zeta.
  split; [|split; [|split; [|split]]].
  - open_placeCall. open_world w. open_env env. plumbing. rewrite Hnw.
    branches; read_effects; intros remote stream Hin; in_cases;
      (split; [reflexivity | in_list]).
  - open_placeCall. open_world w. open_env env.
    branches; read_effects; intros remote stream Hin; in_cases;
      (split; [reflexivity | in_list]).
  - intros p stream Hp Hs.
    destruct (placeCall_succeeds env remoteId w p stream Hnw Hp Hs)
      as [_ [H2 [H3 _]]].
    split; [exact H3 | exact H2].
  - intros Hnil. rewrite Hnil in Hnw. discriminate.
  - exact (trim_spec remoteId).
Qed.

Lemma placeCall_dials_trimmed_witness :
  In (PeerCall (trim (lit " carol ")) microphone)
     (effects_between dialing (run (placeCall env_ok (lit " carol ")) dialing)) /\
  In (SetStatusMessage (lit "Calling " ++ lit " carol " ++ ellipsis))
     (effects_between dialing (run (placeCall env_ok (lit " carol ")) dialing)).
Proof.
  pose proof (placeCall_dials_trimmed env_ok (lit " carol ") dialing eq_refl)
    as [_ [_ [H _]]].
  apply (H {| peer_id := createAgentId (lit "0123456789abcdef") |} microphone).
  - vm_compute. reflexivity.
  - vm_compute. reflexivity.
Defined.

(** ** Answering an incoming call *)

Ltac open_onPeerCall :=
  unfold onPeerCall, to_completion, onPeerCall_begin, resume, answer_try,
    call_answer, ensureLocalStream, ensureLocalStream_begin,
    ensureLocalStream_settled, observeMicLevel, tick, registerCallHandlers.

(** C5.  When an incoming call is notified and acquiring the local stream
    fails with [err] (the microphone promise rejects, or no [AudioContext]
    exists), the call's [answer] is not invoked and no handler is installed
    on it, and the handler ends with status [error] and the failure's
    message ([err.message] for an [Error], the fixed text "Unable to answer
    incoming call." otherwise).  This holds for the handler run in one go and
    for its resumption after the promise has settled.  Whenever [answer] is
    invoked, it is on the incoming call and with the stream the acquisition
    returned. *)
Theorem incoming_call_needs_stream (env : Env) (call : MediaConnection)
        (w : World) :
  let w' := run (onPeerCall env call) w in
  let resumed := run (resume env (ResumeAnswer call)) w in
  (forall err,
     outcome (ensureLocalStream env) w = Thrown err ->
     existsb is_CallAnswer (effects_between w w') = false /\
     existsb is_CallOn (effects_between w w') = false /\
     status (state w') = error /\
     statusMessage (state w') =
       message_or (lit "Unable to answer incoming call.") err /\
     (forall m, err = ErrorObj m -> statusMessage (state w') = m)) /\
  (forall err,
     outcome (ensureLocalStream_settled env) w = Thrown err ->
     existsb is_CallAnswer (effects_between w resumed) = false /\
     existsb is_CallOn (effects_between w resumed) = false /\
     status (state resumed) = error /\
     statusMessage (state resumed) =
       message_or (lit "Unable to answer incoming call.") err /\
     (forall m, err = ErrorObj m -> statusMessage (state resumed) = m)) /\
  (forall call' stream,
     In (CallAnswer call' stream) (effects_between w w') ->
     call' = call /\ outcome (ensureLocalStream env) w = Returned stream) /\
  (forall call' stream,
     In (CallAnswer call' stream) (effects_between w resumed) ->
     call' = call /\
     outcome (ensureLocalStream_settled env) w = Returned stream).
Proof.
  cbv zeta. split; [|split; [|split]].
  - intros err. open_onPeerCall. open_world w. open_env env.
    branches; read_effects; intros Herr; try discriminate Herr;
      injection Herr as <-; repeat split; intros msg_ Hmsg_;
      first [subst; reflexivity | injection Hmsg_ as <-; reflexivity].
  - intros err. open_onPeerCall. open_world w. open_env env.
    branches; read_effects; intros Herr; try discriminate Herr;
      injection Herr as <-; repeat split; intros msg_ Hmsg_;
      first [subst; reflexivity | injection Hmsg_ as <-; reflexivity].
  - open_onPeerCall. open_world w. open_env env.
    branches; read_effects; intros call' stream Hin; in_cases;
      split; reflexivity.
  - open_onPeerCall. open_world w. open_env env.
    branches; read_effects; intros call' stream Hin; in_cases;
      split; reflexivity.
Qed.

Lemma incoming_call_needs_stream_witness :
  status (state (run (onPeerCall env_denied carol_call) initial)) = error /\
  statusMessage (state (run (onPeerCall env_denied carol_call) initial)) =
    lit "Permission denied" /\
  existsb is_CallAnswer
    (effects_between initial (run (onPeerCall env_denied carol_call) initial)) =
    false.
Proof.
  pose proof (incoming_call_needs_stream env_denied carol_call initial)
    as [H _].
  cbv zeta in H.
  destruct (H (ErrorObj (lit "Permission denied")) eq_refl)
    as [Hanswer [_ [Hstatus [_ Hmessage]]]].
  split; [exact Hstatus | split; [exact (Hmessage _ eq_refl) | exact Hanswer]].
Defined.

(** ** Invariants of the event loop *)

Ltac open_handlers :=
  unfold resume, onLoaded, onPeerOpen, onPeerCall_begin, onPeerDisconnected,
    onPeerError, onCallStream, onCallClose, onCallError, endCall,
    handleCopyId, cleanup, placeCall_begin, placeCall_try, answer_try,
    call_answer, peer_call, registerCallHandlers, observeMicLevel,
    ensureLocalStream_begin, ensureLocalStream_settled, destroyCall, tick.

(** Reduces a step to the handler it runs. *)
Ltac by_event Hstep :=
  cbn [step] in Hstep;
  repeat match type of Hstep with
  | (if ?b then _ else _) = _ => destruct b; [|try discriminate Hstep]
  | match ?o with _ => _ end = _ => destruct o eqn:?; [|try discriminate Hstep]
  end;
  try discriminate Hstep; injection Hstep as <-.

Lemma steps_reachable (evs : list (Env * Event)) (w w' : World) :
  reachable w -> steps evs w = Some w' -> reachable w'.
Proof.
  revert w. induction evs as [|[env ev] rest IH]; intros w Hw Hsteps.
  - injection Hsteps as <-. exact Hw.
  - cbn [steps] in Hsteps. destruct (step env ev w) as [w1|] eqn:Hstep;
      [|discriminate].
    exact (IH w1 (reachable_step env ev w w1 Hw Hstep) Hsteps).
Qed.

Lemma dialing_reachable : reachable dialing.
Proof.
  apply (steps_reachable (dial_bob env_ok) initial dialing reachable_initial).
  vm_compute. reflexivity.
Qed.

(** *** Animation frames *)

Lemma truthy_number_false (z : Z) : truthy_number z = false -> z = 0%Z.
Proof.
  unfold truthy_number. intros H. apply negb_false_iff in H.
  apply Z.eqb_eq in H. exact H.
Qed.

Lemma truthy_number_true (z : Z) : z <> 0%Z -> truthy_number z = true.
Proof.
  unfold truthy_number. intros H. apply negb_true_iff, Z.eqb_neq. exact H.
Qed.

Ltac frame_leaf :=
  unfold frame_inv in *; cbn in *;
  match goal with
  | H : _ /\ _ /\ (_ \/ _) |- _ =>
      let Hth := fresh "Hth" in
      let Hlast := fresh "Hlast" in
      let Hnone := fresh "Hnone" in
      let Hone := fresh "Hone" in
      let Href := fresh "Href" in
      let Hpos := fresh "Hpos" in
      destruct H as [Hth [Hlast [Hnone | [? [? [Hone [Href Hpos]]]]]]];
      [ rewrite ?Hnone
      | try discriminate Href; try (injection Href as <-); rewrite ?Hone ]
  end;
  repeat match goal with
  | H : truthy_number _ = false |- _ => apply truthy_number_false in H; subst
  end;
  cbn; rewrite ?Z.eqb_refl; cbn;
  try lia;
  repeat apply conj; try assumption; try lia;
  first [ left; reflexivity
        | right; eexists; eexists; repeat apply conj;
          first [reflexivity | eassumption | lia] ].

Lemma find_frame_single (handle h : Z) (a analyser : AnalyserNode) :
  find_frame handle [(h, a)] = Some analyser -> h = handle /\ a = analyser.
Proof.
  unfold find_frame. cbn. destruct (h =? handle)%Z eqn:E; [|discriminate].
  apply Z.eqb_eq in E. intros H. injection H as <-. auto.
Qed.

Lemma step_frame_inv (env : Env) (ev : Event) (w w' : World) :
  frame_inv w -> step env ev w = Some w' -> frame_inv w'.
Proof.
  intros Hinv Hstep. destruct ev; by_event Hstep.
  10: { (* a frame arrives *)
    destruct Hinv as [Hth [Hlast [Hnone | [h [a0 [Hone [Href Hpos]]]]]]];
      [rewrite Hnone in Heqo; discriminate|].
    rewrite Hone in Heqo. apply find_frame_single in Heqo as [-> ->].
    unfold tick. open_world w. open_env env. plumbing.
    unfold frame_inv. cbn in *. rewrite Hone. cbn. rewrite Z.eqb_refl. cbn.
    repeat apply conj; try assumption; try lia.
    right. eexists. eexists. repeat apply conj; (reflexivity || lia). }
  9: destruct c.
  all: revert Hinv; open_handlers; open_world w; open_env env; branches;
    intros H_; frame_leaf.
Qed.

Lemma reachable_frame_inv (w : World) : reachable w -> frame_inv w.
Proof.
  induction 1 as [|env ev w w' _ IH Hstep].
  - unfold frame_inv. cbn. repeat apply conj; auto. lia.
  - exact (step_frame_inv env ev w w' IH Hstep).
Qed.

Lemma observeMicLevel_frame_inv (env : Env) :
  preserves frame_inv (observeMicLevel env).
Proof.
  unfold observeMicLevel, tick. intros w_; open_world w_; open_env env;
    branches; intros H_; frame_leaf.
Qed.

Lemma observeMicLevel_returns (env : Env) (w : World) :
  fst (observeMicLevel env w) = Returned tt.
Proof.
  unfold observeMicLevel, tick. open_world w; open_env env; branches;
    reflexivity.
Qed.

(** With an analyser held, one call leaves exactly its own callback
    outstanding. *)
Lemma observeMicLevel_pending (env : Env) (w : World) (a : AnalyserNode) :
  frame_inv w ->
  analyserRef (refs w) = Some a ->
  pending_frames (log (run (observeMicLevel env) w)) =
    [((lastFrame w + 1)%Z, a)] /\
  analyserRef (refs (run (observeMicLevel env) w)) = Some a.
Proof.
  unfold observeMicLevel, tick. intros Hinv Ha. revert Hinv.
  open_world w. open_env env. cbn in Ha. subst.
  branches; intros Hinv; unfold frame_inv in Hinv; cbn in Hinv;
    destruct Hinv as [_ [_ [Hnone | [h [a0 [Hone [Href Hpos]]]]]]];
    try discriminate Href; try (injection Href as <-);
    repeat match goal with
    | H : truthy_number _ = false |- _ => apply truthy_number_false in H; subst
    end;
    try lia;
    rewrite ?Hnone, ?Hone; cbn; rewrite ?Z.eqb_refl; cbn; split; reflexivity.
Qed.

Lemma one_frame_suffix (recent past : list Effect) :
  one_frame_throughout (recent ++ past) -> length (pending_frames past) <= 1.
Proof.
  induction recent as [|e recent IH]; intros H.
  - destruct past as [|e past]; [cbn; lia|]. exact (proj1 H).
  - apply IH. exact (proj2 H).
Qed.

Lemma observe_repeatedly_run (env : Env) (rest : list Env) (w : World) :
  run (observe_repeatedly (env :: rest)) w =
  run (observe_repeatedly rest) (run (observeMicLevel env) w).
Proof.
  unfold run. cbn [observe_repeatedly]. unfold bind.
  pose proof (observeMicLevel_returns env w) as Hret.
  destruct (observeMicLevel env w) as [[[]|e] w1]; [reflexivity|].
  discriminate Hret.
Qed.

Lemma observe_repeatedly_frame_inv (envs : list Env) (w : World) :
  frame_inv w ->
  frame_inv (run (observe_repeatedly envs) w) /\
  (forall a, analyserRef (refs w) = Some a -> envs <> [] ->
     length (pending_frames (log (run (observe_repeatedly envs) w))) = 1 /\
     analyserRef (refs (run (observe_repeatedly envs) w)) = Some a).
Proof.
  revert w. induction envs as [|env rest IH]; intros w Hinv.
  - split; [exact Hinv|]. intros a _ Hne. contradiction.
  - rewrite observe_repeatedly_run.
    pose proof (observeMicLevel_frame_inv env w Hinv) as Hinv1.
    destruct (IH _ Hinv1) as [Hn Hone]. split; [exact Hn|].
    intros a Ha _.
    destruct (observeMicLevel_pending env w a Hinv Ha) as [Hp Ha1].
    destruct rest as [|env2 rest].
    + assert (E : forall x, run (observe_repeatedly []) x = x) by reflexivity.
      rewrite E, Hp. split; [reflexivity | exact Ha1].
    + apply Hone; [exact Ha1 | discriminate].
Qed.

(** C8.  In a reachable world, [observeMicLevel] called while a frame is
    pending (an analyser is held and [animationFrameRef] names a handle)
    first cancels that frame, then reads, publishes and schedules the next
    one, which is then the only one outstanding.  After any number of
    consecutive calls, at no moment of the logged past was more than one
    animation-frame callback outstanding, and if an analyser is held and
    there was at least one call exactly one is outstanding at the end. *)
Theorem observeMicLevel_single_loop (w : World) (env : Env) (envs : list Env) :
  reachable w ->
  let w1 := run (observeMicLevel env) w in
  let wn := run (observe_repeatedly envs) w in
  (forall a h,
     analyserRef (refs w) = Some a ->
     animationFrameRef (refs w) = Some h -> h <> 0%Z ->
     effects_between w w1 =
       [CancelAnimationFrame h; GetByteFrequencyData a;
        SetMicLevel (sample a (env_frequencyData env));
        RequestAnimationFrame (lastFrame w + 1) a] /\
     pending_frames (log w1) = [((lastFrame w + 1)%Z, a)]) /\
  (forall recent past,
     log wn = recent ++ past -> length (pending_frames past) <= 1) /\
  (forall a,
     analyserRef (refs w) = Some a -> envs <> [] ->
     length (pending_frames (log wn)) = 1).
Proof.
  intros Hreach. apply reachable_frame_inv in Hreach. cbv zeta.
  split; [|split].
  - intros a h Ha Hh Hnz. split.
    + apply truthy_number_true in Hnz. clear Hreach.
      unfold observeMicLevel, tick. open_world w. open_env env.
      cbn in Ha, Hh. subst. plumbing. rewrite Hnz. plumbing. read_effects.
      reflexivity.
    + exact (proj1 (observeMicLevel_pending env w a Hreach Ha)).
  - intros recent past Hlog.
    destruct (observe_repeatedly_frame_inv envs w Hreach) as [[Hth _] _].
    rewrite Hlog in Hth. exact (one_frame_suffix recent past Hth).
  - intros a Ha Hne.
    destruct (observe_repeatedly_frame_inv envs w Hreach) as [_ Hone].
    exact (proj1 (Hone a Ha Hne)).
Qed.

Lemma observeMicLevel_single_loop_witness :
  length (pending_frames
            (log (run (observe_repeatedly [env_ok; env_ok; env_ok]) dialing))) = 1.
Proof.
  pose proof (observeMicLevel_single_loop dialing env_ok [env_ok; env_ok; env_ok]
                dialing_reachable) as [_ [_ H]].
  apply (H {| analyser_id := 2; fftSize := 256 |}).
  - vm_compute. reflexivity.
  - discriminate.
Defined.

(** *** Call subscriptions *)

Lemma same_call_refl (c : MediaConnection) : same_call c c = true.
Proof. apply Nat.eqb_refl. Qed.

Lemma same_call_sym (c d : MediaConnection) : same_call c d = same_call d c.
Proof. apply Nat.eqb_sym. Qed.

Lemma add_call_nil (c : MediaConnection) : add_call c [] = [c].
Proof. reflexivity. Qed.

Lemma add_call_same (c : MediaConnection) : add_call c [c] = [c].
Proof. unfold add_call. cbn. rewrite same_call_refl. reflexivity. Qed.

(** Under the invariant, closing the handle in [callRef] ends every
    subscription, and without a handle there is none. *)
Lemma call_inv_facts (w : World) :
  call_inv w ->
  match callRef (refs w) with
  | None => subscribed (log w) = []
  | Some d => remove_call d (subscribed (log w)) = []
  end.
Proof.
  intros [_ [_ His]]. unfold subscribed_is_callRef in His.
  destruct (callRef (refs w)) as [d|].
  - induction (subscribed (log w)) as [|x l IH]; [reflexivity|].
    cbn. destruct (His x (or_introl eq_refl)) as [d' [Hd Hx]].
    injection Hd as <-. rewrite same_call_sym, Hx. cbn.
    apply IH. intros c Hc. apply His. right. exact Hc.
  - destruct (subscribed (log w)) as [|x l]; [reflexivity|].
    destruct (His x (or_introl eq_refl)) as [d [Hd _]]. discriminate.
Qed.

Arguments add_call : simpl never.
Arguments remove_call : simpl never.

Ltac call_leaf :=
  match goal with
  | H : call_inv _ |- _ =>
      let Hfact := fresh "Hfact" in
      let Hth := fresh "Hth" in
      let Hlen := fresh "Hlen" in
      let His := fresh "His" in
      pose proof (call_inv_facts _ H) as Hfact;
      destruct H as [Hth [Hlen His]];
      unfold call_inv, subscribed_is_callRef in *; cbn in *;
      try rewrite !Hfact;
      rewrite ?add_call_nil, ?add_call_same; cbn;
      repeat apply conj; try assumption; try lia;
      try (intros x_ Hx_; cbn in Hx_;
           first [ destruct Hx_ as [<- | []]; eexists; split;
                   [reflexivity | apply same_call_refl]
                 | destruct Hx_ ])
  end.

Lemma step_call_inv (env : Env) (ev : Event) (w w' : World) :
  call_inv w -> step env ev w = Some w' -> call_inv w'.
Proof.
  intros Hinv Hstep. destruct ev; by_event Hstep.
  9: destruct c.
  all: revert Hinv; open_handlers; open_world w; open_env env; branches;
    intros H_; call_leaf.
Qed.

Lemma reachable_call_inv (w : World) : reachable w -> call_inv w.
Proof.
  induction 1 as [|env ev w w' _ IH Hstep].
  - unfold call_inv, subscribed_is_callRef. cbn. repeat apply conj; auto.
    intros c [].
  - exact (step_call_inv env ev w w' IH Hstep).
Qed.

Lemma one_call_suffix (recent past : list Effect) :
  one_call_throughout (recent ++ past) -> length (subscribed past) <= 1.
Proof.
  induction recent as [|e recent IH]; intros H.
  - destruct past as [|e past]; [cbn; lia|]. exact (proj1 H).
  - apply IH. exact (proj2 H).
Qed.

Lemma registerCallHandlers_call_inv (call : MediaConnection) (w : World) :
  call_inv w ->
  call_inv (run (registerCallHandlers call) w) /\
  subscribed (log (run (registerCallHandlers call) w)) = [call].
Proof.
  unfold registerCallHandlers. intros Hinv. revert Hinv. open_world w.
  branches; intros H_; (split; [call_leaf|]);
    pose proof (call_inv_facts _ H_) as Hfact; cbn in Hfact |- *;
    rewrite Hfact, ?add_call_nil, ?add_call_same; reflexivity.
Qed.

(** A step that starts with a call handle held installs handlers only
    after a [close]: the handle held is closed first. *)
Lemma step_closes_before_registering (env : Env) (ev : Event) (w w' : World) :
  callRef (refs w) <> None ->
  step env ev w = Some w' ->
  preceded_by is_CallClose is_CallOn (effects_between w w').
Proof.
  intros Hheld Hstep. destruct ev; by_event Hstep.
  9: destruct c.
  10: clear Heqo.
  all: revert Hheld; open_handlers; open_world w; open_env env; branches;
    read_effects; intros Hheld;
    first [ apply guarded_preceded_by; reflexivity
          | exfalso; apply Hheld; reflexivity ].
Qed.



(** ** The agent identity *)

Lemma slice_app_short (a b : nat) (s t : jsstring) :
  b <= length s -> slice a b (s ++ t) = slice a b s.
Proof.
  intros Hb. unfold slice.
  destruct (Nat.le_gt_cases a (length s)) as [Ha | Ha].
  - rewrite skipn_app. replace (a - length s) with 0 by lia.
    cbn [skipn]. rewrite firstn_app, length_skipn.
    replace (b - a - (length s - a)) with 0 by lia.
    cbn [firstn]. apply app_nil_r.
  - replace (b - a) with 0 by lia. reflexivity.
Qed.

Lemma slice_length (a b : nat) (s : jsstring) :
  a <= b -> b <= length s -> length (slice a b s) = b - a.
Proof.
  intros Ha Hb. unfold slice. rewrite length_firstn, length_skipn. lia.
Qed.

Lemma createAgentId_length (raw : jsstring) :
  8 <= length raw -> length (createAgentId raw) = 17.
Proof.
  intros H. unfold createAgentId. rewrite !length_app.
  rewrite !slice_length by lia. reflexivity.
Qed.

Lemma createAgentId_app (head rest : jsstring) :
  8 <= length head -> createAgentId (head ++ rest) = createAgentId head.
Proof.
  intros H. unfold createAgentId. rewrite !slice_app_short by lia.
  reflexivity.
Qed.

Lemma remove_hyphens_clean (s : jsstring) :
  forallb (fun c => negb (c =? 45)%N) s = true -> remove_hyphens s = s.
Proof.
  unfold remove_hyphens. induction s as [|c s IH]; cbn; [reflexivity|].
  intros H. apply andb_true_iff in H as [Hc Hs]. rewrite Hc, IH; auto.
Qed.

Lemma remove_hyphens_app (s t : jsstring) :
  remove_hyphens (s ++ t) = remove_hyphens s ++ remove_hyphens t.
Proof. apply filter_app. Qed.

Lemma agent_prefix (x : jsstring) :
  AGENT_PREFIX ++ lit "-" ++ x = lit "agentic-" ++ x.
Proof. reflexivity. Qed.

(** X1.  With [crypto.randomUUID] available, the agent identity is
    "agentic-", the first four characters of the UUID, "-", and its next four
    characters: whatever follows the UUID's first group of eight does not
    enter, and the identity has 17 characters. *)
Theorem agent_id_from_uuid (group1 rest now36 random36 : jsstring) :
  length group1 = 8 ->
  forallb (fun c => negb (c =? 45)%N) group1 = true ->
  let id := createAgentId (raw_id (Some (group1 ++ rest)) now36 random36) in
  id = lit "agentic-" ++ firstn 4 group1 ++ lit "-" ++ skipn 4 group1 /\
  length id = 17.
Proof.
  intros Hlen Hclean. cbv zeta. unfold raw_id.
  rewrite remove_hyphens_app, (remove_hyphens_clean group1 Hclean).
  rewrite createAgentId_app by lia. split.
  - unfold createAgentId. rewrite agent_prefix. unfold slice.
    change (skipn 0 group1) with group1. change (4 - 0) with 4.
    change (8 - 4) with 4.
    rewrite (firstn_all2 (n := 4) (skipn 4 group1))
      by (rewrite length_skipn; lia).
    reflexivity.
  - apply createAgentId_length. lia.
Qed.

(** X2.  Without [crypto.randomUUID], once the base-36 timestamp has eight
    characters or more the identity is made of the timestamp's first eight
    characters alone: the [Math.random] part never enters it, so two agents
    started in the same millisecond get the same identity. *)
Theorem agent_id_fallback_ignores_random (now36 random36 random36' : jsstring) :
  8 <= length now36 ->
  createAgentId (raw_id None now36 random36) =
  createAgentId (raw_id None now36 random36') /\
  createAgentId (raw_id None now36 random36) =
    lit "agentic-" ++ slice 0 4 now36 ++ lit "-" ++ slice 4 8 now36 /\
  length (createAgentId (raw_id None now36 random36)) = 17.
Proof.
  intros Hlen. unfold raw_id. rewrite !createAgentId_app by lia.
  split; [reflexivity|]. split; [apply agent_prefix|].
  apply createAgentId_length. lia.
Qed.

(** ** The meter's readout and the buttons *)

Lemma mic_activity_quotient (level : Z) :
  exists q r,
    (4 * level + 3 = 6 * q + r)%Z /\ (0 <= r < 6)%Z /\
    mic_activity level = Z.min q 100.
Proof.
  exists ((4 * level + 3) / 6)%Z, ((4 * level + 3) mod 6)%Z.
  split; [apply Z.div_mod; lia|]. split; [apply Z.mod_pos_bound; lia|].
  unfold mic_activity, round_div. do 2 f_equal. lia.
Qed.

(** X3.  The meter prints "Mic idle" exactly when the level is not positive;
    otherwise it prints a percentage between 1 and 100 (never 0), which is
    100 exactly from level 150 on; the percentage grows with the level. *)
Theorem mic_readout_range (level level' : Z) :
  (mic_readout level = None <-> (level <= 0)%Z) /\
  (forall p, mic_readout level = Some p -> (1 <= p <= 100)%Z) /\
  ((0 < level)%Z ->
   (mic_readout level = Some 100%Z <-> (150 <= level)%Z)) /\
  ((level <= level')%Z -> (mic_activity level <= mic_activity level')%Z).
Proof.
  unfold mic_readout.
  destruct (mic_activity_quotient level) as [q [r [Hq [Hr Hm]]]].
  destruct (mic_activity_quotient level') as [q' [r' [Hq' [Hr' Hm']]]].
  rewrite Hm, Hm'.
  split; [|split; [|split]].
  - destruct (0 <? level)%Z eqn:E.
    + apply Z.ltb_lt in E. split; [discriminate | lia].
    + apply Z.ltb_ge in E. split; [intros _; exact E | reflexivity].
  - intros p. destruct (0 <? level)%Z eqn:E; [|discriminate].
    apply Z.ltb_lt in E. intros H. injection H as <-. lia.
  - intros Hpos. apply Z.ltb_lt in Hpos. rewrite Hpos. split.
    + intros H. injection H as H. lia.
    + intros H. f_equal. lia.
  - intros Hle. lia.
Qed.

Lemma step_user_event_in_error (env : Env) (ev : Event) (w w' : World) :
  is_user_event ev = true ->
  permitted ev (state w) = true ->
  status (state w) = error ->
  step env ev w = Some w' ->
  status (state w') = error /\ refs w' = refs w.
Proof.
  intros Huser Hperm Herr Hstep.
  destruct ev; try discriminate Huser; cbn [step] in Hstep;
    injection Hstep as <-.
  - open_world w. cbn in *. auto.
  - exfalso. unfold permitted, callDisabled in Hperm. rewrite Herr in Hperm.
    discriminate Hperm.
  - exfalso. unfold permitted, hangUpDisabled in Hperm. rewrite Herr in Hperm.
    discriminate Hperm.
  - clear Hperm Huser. revert Herr. unfold handleCopyId. open_world w.
    open_env env. branches; intros Herr; cbn in *; auto.
  - open_world w. cbn in *. auto.
Qed.

(** X4.  The Call and Hang up buttons are never enabled together: Call needs
    status [ready] or [incoming] and an identifier with a character that is
    not white, Hang up needs [calling] or [in_call]; in status [error] or
    [initializing] both are disabled.  Hence in status [error] nothing the
    page lets the user do (typing, copying) changes the status or a ref. *)
Theorem buttons_gate (s : State) :
  (callDisabled s = false -> hangUpDisabled s = true) /\
  (callDisabled s = false ->
     existsb (fun c => negb (is_white c)) (remoteId s) = true /\
     (status s = ready \/ status s = incoming)) /\
  (hangUpDisabled s = false -> status s = calling \/ status s = in_call) /\
  (status s = error \/ status s = initializing ->
     callDisabled s = true /\ hangUpDisabled s = true) /\
  (forall env ev w w',
     state w = s -> status s = error ->
     is_user_event ev = true -> permitted ev s = true ->
     step env ev w = Some w' ->
     status (state w') = error /\ refs w' = refs w).
Proof.
  unfold callDisabled, hangUpDisabled.
  split; [|split; [|split; [|split]]].
  - destruct (status s); cbn; intros H; try reflexivity; discriminate H.
  - intros H. apply orb_false_iff in H as [Hr Ht].
    apply negb_false_iff in Hr, Ht. split.
    + apply truthy_trim_true. exact Ht.
    + destruct (status s); try discriminate Hr; auto.
  - destruct (status s); cbn; intros H; try discriminate H; auto.
  - intros [H | H]; rewrite H; split; reflexivity.
  - intros env ev w w' Hs Herr Huser Hperm Hstep. subst s.
    exact (step_user_event_in_error env ev w w' Huser Hperm Herr Hstep).
Qed.

(** ** Acquiring the microphone *)

(** Like [in_cases], for entries of any shape. *)
Ltac in_entries :=
  repeat match goal with
  | H : In _ (_ :: _) |- _ => cbn [In] in H
  | H : In _ [] |- _ => destruct H
  | H : _ \/ _ |- _ => destruct H
  | H : False |- _ => destruct H
  | H : @eq Effect _ _ |- _ => first [discriminate H | inversion H; subst; clear H]
  end.

(** X5.  Once [ensureLocalStream] has returned a stream, the stream is held,
    and calling it again, whatever the browser would answer, returns the
    same stream and changes nothing: no second microphone request, no second
    audio context or analyser.  With a stream already held the first call
    does nothing either. *)
Theorem ensureLocalStream_reuses (env env' : Env) (w : World)
        (stream : MediaStream) :
  outcome (ensureLocalStream env) w = Returned stream ->
  let w1 := run (ensureLocalStream env) w in
  localStreamRef (refs w1) = Some stream /\
  ensureLocalStream env' w1 = (Returned stream, w1) /\
  (forall held, localStreamRef (refs w) = Some held ->
     held = stream /\ w1 = w).
Proof.
  cbv zeta. unfold ensureLocalStream, ensureLocalStream_begin,
    ensureLocalStream_settled.
  open_world w. open_env env.
  branches; intros Hs; try discriminate Hs; injection Hs as <-;
    (split; [reflexivity | split; [reflexivity|]]);
    intros held Hheld; try discriminate Hheld; injection Hheld as <-;
    split; reflexivity.
Qed.

(** X6.  When no stream is held and the microphone promise rejects with
    [err], [ensureLocalStream] rethrows [err], holds nothing afterwards, and
    has set the status to [error] with [err.message], or with "Microphone
    access was denied." when [err] is no [Error]. *)
Theorem ensureLocalStream_refused (env : Env) (w : World) (err : value) :
  localStreamRef (refs w) = None ->
  env_getUserMedia env = inr err ->
  let w1 := run (ensureLocalStream env) w in
  outcome (ensureLocalStream env) w = Thrown err /\
  refs w1 = refs w /\
  status (state w1) = error /\
  statusMessage (state w1) =
    message_or (lit "Microphone access was denied.") err /\
  effects_between w w1 =
    [GetUserMedia; SetStatus error;
     SetStatusMessage (message_or (lit "Microphone access was denied.") err)].
Proof.
  cbv zeta. unfold ensureLocalStream, ensureLocalStream_begin,
    ensureLocalStream_settled.
  open_world w. open_env env. cbn. intros -> ->. plumbing. read_effects.
  repeat split.
Qed.

(** X7.  In a browser without [AudioContext], [ensureLocalStream] throws
    "AudioContext is not supported in this browser." after the microphone
    was granted: the stream stays in [localStreamRef] and is not stopped, and
    no analyser is made.  A later [ensureLocalStream] therefore returns that
    stream at once, without an analyser. *)
Theorem ensureLocalStream_without_AudioContext (env env' : Env) (w : World)
        (stream : MediaStream) :
  localStreamRef (refs w) = None ->
  audioContextRef (refs w) = None ->
  env_getUserMedia env = inl stream ->
  env_AudioContextCtor env = false ->
  let w1 := run (ensureLocalStream env) w in
  outcome (ensureLocalStream env) w =
    Thrown (ErrorObj (lit "AudioContext is not supported in this browser.")) /\
  status (state w1) = error /\
  statusMessage (state w1) =
    lit "AudioContext is not supported in this browser." /\
  localStreamRef (refs w1) = Some stream /\
  analyserRef (refs w1) = analyserRef (refs w) /\
  existsb is_StopTracks (effects_between w w1) = false /\
  ensureLocalStream env' w1 = (Returned stream, w1).
Proof.
  cbv zeta. unfold ensureLocalStream, ensureLocalStream_begin,
    ensureLocalStream_settled.
  open_world w. open_env env. cbn. intros -> -> -> ->.
  branches; read_effects; repeat split.
Qed.

Lemma destroyCall_stops_held (w : World) (s : MediaStream) :
  In (StopTracks s) (effects_between w (run destroyCall w)) ->
  localStreamRef (refs w) = Some s.
Proof.
  unfold run. rewrite destroyCall_run. cbn [snd].
  rewrite (effects_between_added _ _
             (SetMicLevel 0 :: rev (released (refs w)))) by reflexivity.
  cbn [rev]. rewrite rev_involutive. unfold released.
  destruct (refs w) as [? ? ? [c|] [t|] [x|] [a|] [h|]]; cbn;
    try destruct (truthy_number h); cbn; intros Hin; in_entries; reflexivity.
Qed.

(** X8.  A microphone promise that settles while a stream is already held
    (two requests were in flight) replaces the held stream without stopping
    it; the teardown that follows stops the new stream only, so the first
    stream is never stopped. *)
Theorem ensureLocalStream_settled_replaces (env : Env) (w : World)
        (held stream : MediaStream) :
  localStreamRef (refs w) = Some held ->
  env_getUserMedia env = inl stream ->
  let w1 := run (ensureLocalStream_settled env) w in
  localStreamRef (refs w1) = Some stream /\
  existsb is_StopTracks (effects_between w w1) = false /\
  (forall s, In (StopTracks s) (effects_between w1 (run destroyCall w1)) ->
     s = stream).
Proof.
  intros Hheld Henv. cbv zeta.
  assert (H : localStreamRef (refs (run (ensureLocalStream_settled env) w)) =
              Some stream /\
              existsb is_StopTracks
                (effects_between w (run (ensureLocalStream_settled env) w)) =
              false).
  { revert Hheld Henv. unfold ensureLocalStream_settled.
    open_world w. open_env env. cbn. intros -> ->.
    branches; read_effects; split; reflexivity. }
  destruct H as [Hs Hn]. split; [exact Hs | split; [exact Hn|]].
  intros s Hin. apply destroyCall_stops_held in Hin.
  rewrite Hs in Hin. injection Hin as <-. reflexivity.
Qed.

(** ** Dials that fail *)

(** X9.  With an identifier that is not blank but no peer created yet (or
    after unmounting), [placeCall] sets status [error] with "Agent not ready
    yet." and does nothing else: no microphone request, no transport call,
    nothing parked, refs unchanged. *)
Theorem placeCall_agent_not_ready (env : Env) (remoteId : jsstring) (w : World) :
  existsb (fun c => negb (is_white c)) remoteId = true ->
  peerRef (refs w) = None ->
  let w' := run (placeCall env remoteId) w in
  placeCall_begin env remoteId w = (Returned None, w') /\
  status (state w') = error /\
  statusMessage (state w') = lit "Agent not ready yet." /\
  effects_between w w' =
    [SetStatus error; SetStatusMessage (lit "Agent not ready yet.")] /\
  refs w' = refs w /\ awaiting w' = awaiting w.
Proof.
  intros Hnw. apply truthy_trim_true in Hnw. cbv zeta.
  unfold placeCall, to_completion, placeCall_begin.
  open_world w. cbn. intros ->. plumbing. rewrite Hnw. plumbing.
  read_effects. repeat split.
Qed.

(** X10.  When the microphone promise rejects during [placeCall], the
    status message is set twice, first by [ensureLocalStream] and then by
    [placeCall]'s own handler, so the final message is [err.message] or, for a
    value that is no [Error], "Failed to start call."; no transport call is
    made and every ref is as before (no stream, no call handle). *)
Theorem placeCall_microphone_refused (env : Env) (remoteId : jsstring)
        (w : World) (p : Peer) (err : value) :
  existsb (fun c => negb (is_white c)) remoteId = true ->
  peerRef (refs w) = Some p ->
  localStreamRef (refs w) = None ->
  env_getUserMedia env = inr err ->
  let w' := run (placeCall env remoteId) w in
  effects_between w w' =
    [GetUserMedia;
     SetStatus error;
     SetStatusMessage (message_or (lit "Microphone access was denied.") err);
     SetStatus error;
     SetStatusMessage (message_or (lit "Failed to start call.") err)] /\
  status (state w') = error /\
  statusMessage (state w') = message_or (lit "Failed to start call.") err /\
  refs w' = refs w.
Proof.
  intros Hnw. apply truthy_trim_true in Hnw. cbv zeta. open_placeCall.
  open_world w. open_env env. cbn. intros -> -> ->. plumbing. rewrite Hnw.
  plumbing. read_effects. repeat split.
Qed.

(** X11.  When the transport's [call] throws, [placeCall] ends in status
    [error] with the failure's message and releases nothing: the stream just
    obtained stays held and unstopped, the previous call handle, if any, is
    neither closed nor replaced, and no handler is installed. *)
Theorem placeCall_transport_throws (env : Env) (remoteId : jsstring)
        (w : World) (p : Peer) (stream : MediaStream) (err : value) :
  existsb (fun c => negb (is_white c)) remoteId = true ->
  peerRef (refs w) = Some p ->
  outcome (ensureLocalStream env) w = Returned stream ->
  env_peer_call env = inr err ->
  let w' := run (placeCall env remoteId) w in
  status (state w') = error /\
  statusMessage (state w') = message_or (lit "Failed to start call.") err /\
  callRef (refs w') = callRef (refs w) /\
  localStreamRef (refs w') = Some stream /\
  In (PeerCall (trim remoteId) stream) (effects_between w w') /\
  existsb is_CallClose (effects_between w w') = false /\
  existsb is_CallOn (effects_between w w') = false /\
  existsb is_StopTracks (effects_between w w') = false.
Proof.
  intros Hnw. apply truthy_trim_true in Hnw. cbv zeta. open_placeCall.
  open_world w. open_env env. cbn. intros -> Hs ->. revert Hs.
  plumbing. rewrite Hnw. plumbing.
  branches; read_effects; intros Hs; try discriminate Hs;
    injection Hs as <-; repeat split; in_list.
Qed.

(** ** Answering *)


(** X13.  When [answer] throws, the incoming-call handler ends in status
    [error] with the failure's message; no handler is installed, the
    previous call handle stays in [callRef] unclosed, and the stream stays
    held and unstopped. *)
Theorem onPeerCall_answer_throws (env : Env) (incomingCall : MediaConnection)
        (w : World) (stream : MediaStream) (err : value) :
  outcome (ensureLocalStream env) w = Returned stream ->
  env_answer env = Some err ->
  let w' := run (onPeerCall env incomingCall) w in
  status (state w') = error /\
  statusMessage (state w') =
    message_or (lit "Unable to answer incoming call.") err /\
  callRef (refs w') = callRef (refs w) /\
  localStreamRef (refs w') = Some stream /\
  In (CallAnswer incomingCall stream) (effects_between w w') /\
  existsb is_CallOn (effects_between w w') = false /\
  existsb is_CallClose (effects_between w w') = false /\
  existsb is_StopTracks (effects_between w w') = false.
Proof.
  cbv zeta. open_onPeerCall. open_world w. open_env env. cbn.
  branches; read_effects; intros Hs He; try discriminate Hs;
    try discriminate He; injection Hs as <-; injection He as <-;
    repeat split; in_list.
Qed.

(** ** Hanging up and tearing down *)

Lemma released_without_call (r : Refs) :
  existsb is_CallClose (released (with_callRef None r)) = false.
Proof.
  destruct r as [? ? ? ? [s|] [a|] [x|] [h|]]; unfold released; cbn;
    try destruct (truthy_number h); reflexivity.
Qed.


Lemma teardown_refs (t : Teardown) (w : World) :
  exists p, refs (run (teardown t) w) = with_peerRef p (torn_down (refs w)).
Proof.
  destruct t; cbn [teardown];
    unfold onCallClose, onCallError, endCall, cleanup, destroyCall, torn_down;
    open_world w; branches; eexists; cbn;
    repeat match goal with
    | H : truthy_number _ = _ |- _ => rewrite H
    end;
    reflexivity.
Qed.

Lemma released_with_peerRef (p : option Peer) (r : Refs) :
  released (with_peerRef p r) = released r.
Proof. destruct r; reflexivity. Qed.

Lemma teardown_releases_all (t : Teardown) (w : World) :
  released (refs (run (teardown t) w)) = [] /\
  outcome (teardown t) w = Returned tt /\
  micLevel (state (run (teardown t) w)) = 0%Z.
Proof.
  split.
  - destruct (teardown_refs t w) as [p Hp]. rewrite Hp.
    rewrite released_with_peerRef. apply released_torn_down.
  - destruct t; cbn [teardown];
      unfold onCallClose, onCallError, endCall, cleanup, destroyCall;
      open_world w; branches; split; reflexivity.
Qed.

Lemma teardown_quiet (t : Teardown) (w : World) :
  released (refs w) = [] ->
  existsb is_release (effects_between w (run (teardown t) w)) = false.
Proof.
  destruct t; cbn [teardown];
    unfold onCallClose, onCallError, endCall, cleanup, destroyCall, released;
    open_world w; branches; read_effects; intros H; cbn in H;
    first [discriminate H | congruence | reflexivity].
Qed.

(** X15.  Whichever of [destroyCall], [endCall], a call's [close] handler, a
    call's [error] handler and the unmount cleanup runs second after
    whichever runs first, the second one returns and releases no call or
    media resource again (no [close], no track stop, no context close, no
    analyser disconnect, no frame cancel); afterwards nothing is held and the
    mic level is 0. *)
Theorem teardown_twice (t1 t2 : Teardown) (w : World) :
  let w1 := run (teardown t1) w in
  let w2 := run (teardown t2) w1 in
  outcome (teardown t1) w = Returned tt /\
  outcome (teardown t2) w1 = Returned tt /\
  existsb is_release (effects_between w1 w2) = false /\
  released (refs w2) = [] /\
  micLevel (state w2) = 0%Z.
Proof.
  cbv zeta.
  destruct (teardown_releases_all t1 w) as [Hr1 [Ho1 _]].
  destruct (teardown_releases_all t2 (run (teardown t1) w)) as [Hr2 [Ho2 Hm2]].
  repeat split; try assumption.
  apply teardown_quiet. exact Hr1.
Qed.

(** ** Unmounting, reconnecting, copying *)

Lemma cleanup_run (w : World) :
  cleanup w =
  (Returned tt,
   {| refs := with_peerRef None (torn_down (refs w));
      state := with_micLevel 0 (state w);
      isMounted := false;
      log := rev (optional (peerRef (refs w)) (fun _ => PeerDestroy)) ++
             SetMicLevel 0 :: rev (released (refs w)) ++ log w;
      awaiting := awaiting w;
      lastFrame := lastFrame w;
      lastObject := lastObject w |}).
Proof.
  open_world w. unfold cleanup, destroyCall, torn_down, released.
  branches; reflexivity.
Qed.

Lemma cleanup_effects (w : World) :
  effects_between w (run cleanup w) =
  released (refs w) ++ [SetMicLevel 0] ++
  optional (peerRef (refs w)) (fun _ => PeerDestroy).
Proof.
  unfold run. rewrite cleanup_run. cbn [snd].
  rewrite (effects_between_added _ _
             (rev (optional (peerRef (refs w)) (fun _ => PeerDestroy)) ++
              SetMicLevel 0 :: rev (released (refs w)))).
  - rewrite rev_app_distr. cbn [rev]. rewrite !rev_involutive, <- app_assoc.
    reflexivity.
  - cbn [log]. rewrite <- app_assoc. reflexivity.
Qed.

Lemma onPeerOpen_unmounted (id : jsstring) (w : World) :
  isMounted w = false -> onPeerOpen id w = (Returned tt, w).
Proof. unfold onPeerOpen. intros ->. reflexivity. Qed.


(** X17.  A [disconnected] event sets status [error], calls [reconnect]
    exactly once and touches no ref.  An [open] event after it sets the
    status to [ready] whatever was going on: the refs, a live call handle
    included, stay as they were, yet the Hang up button is then disabled. *)
Theorem reconnect_shows_ready (env env' : Env) (id : jsstring)
        (w w1 w2 : World) :
  isMounted w = true ->
  step env EvPeerDisconnected w = Some w1 ->
  step env' (EvPeerOpen id) w1 = Some w2 ->
  effects_between w w1 =
    [SetStatus error;
     SetStatusMessage
       (lit "Connection lost. Attempting to reconnect" ++ ellipsis);
     PeerReconnect] /\
  status (state w1) = error /\
  refs w1 = refs w /\
  status (state w2) = ready /\
  statusMessage (state w2) =
    lit "Share your agent ID or dial a peer to connect." /\
  localId (state w2) = id /\
  refs w2 = refs w /\
  hangUpDisabled (state w2) = true.
Proof.
  intros Hm H1 H2. cbn [step] in H1.
  destruct (peer_created (log w)); [|discriminate]. injection H1 as <-.
  cbn [step] in H2.
  destruct (peer_created (log (run onPeerDisconnected w))); [|discriminate].
  injection H2 as <-. revert Hm.
  unfold onPeerDisconnected, onPeerOpen. open_world w. cbn. intros ->.
  plumbing. read_effects. repeat split.
Qed.

(** X18.  [handleCopyId] never touches a ref.  With no identity yet it does
    nothing at all.  Otherwise it writes the identity to the clipboard; on
    success it raises [isCopying] (lowered again by the timeout) and leaves
    the status alone; on failure it sets status [error] with the failure's
    message, which disables Hang up even during a call. *)
Theorem handleCopyId_cases (env : Env) (w : World) :
  let w' := run (handleCopyId env) w in
  refs w' = refs w /\
  (localId (state w) = [] -> w' = w) /\
  (localId (state w) <> [] -> env_clipboard env = None ->
     effects_between w w' =
       [ClipboardWrite (localId (state w)); SetIsCopying true; SetTimeoutCopy] /\
     isCopying (state w') = true /\
     status (state w') = status (state w) /\
     statusMessage (state w') = statusMessage (state w) /\
     isCopying (state (run (setIsCopying false) w')) = false) /\
  (forall err,
     localId (state w) <> [] -> env_clipboard env = Some err ->
     effects_between w w' =
       [ClipboardWrite (localId (state w)); SetStatus error;
        SetStatusMessage
          (message_or (lit "Unable to copy ID to clipboard.") err)] /\
     isCopying (state w') = isCopying (state w) /\
     status (state w') = error /\
     hangUpDisabled (state w') = true).
Proof.
  cbv zeta. unfold handleCopyId.
  destruct w as [[? ? ? ? ? ? ? ?] [lid ? ? ? ? ?] ? ? ? ? ?]. open_env env.
  destruct lid as [|c id]; cbn.
  - repeat split; intros; congruence.
  - branches; (split; [reflexivity|]); (split; [intros H; discriminate H|]);
      split; intros; try discriminate; read_effects;
      repeat match goal with
      | H : Some _ = Some _ |- _ => injection H as <-
      end; repeat split.
Qed.

(** ** Superseding a call, and handlers that stay behind *)


(** X20.  With a peer but no stream, a click on Call only sends the
    microphone request and parks the rest of [placeCall] with the identifier
    as typed at the click: status, refs and the Call button's state are
    unchanged (a second click would send a second request), and typing in the
    field afterwards does not change what was parked. *)
Theorem placeCall_parks_at_the_prompt (env : Env) (remoteId : jsstring)
        (w : World) (p : Peer) :
  existsb (fun c => negb (is_white c)) remoteId = true ->
  peerRef (refs w) = Some p ->
  localStreamRef (refs w) = None ->
  let w1 := start (placeCall_begin env remoteId) w in
  effects_between w w1 = [GetUserMedia] /\
  awaiting w1 = awaiting w ++ [ResumePlaceCall remoteId] /\
  state w1 = state w /\
  refs w1 = refs w /\
  callDisabled (state w1) = callDisabled (state w) /\
  (forall text,
     awaiting (run (write_state (with_remoteId text)) w1) = awaiting w1).
Proof.
  intros Hnw. apply truthy_trim_true in Hnw. cbv zeta.
  unfold placeCall_begin, ensureLocalStream_begin.
  open_world w. cbn. intros -> ->. plumbing. rewrite Hnw. plumbing.
  read_effects. repeat split.
Qed.


(** ** The audio resources hang together *)

Lemma sample_byte (a : AnalyserNode) (read : list byte) :
  fftSize a = 256%Z -> (0 <= sample a read <= 255)%Z.
Proof.
  intros Hfft.
  assert (Hn : (0 < frequencyBinCount a)%Z)
    by (unfold frequencyBinCount; rewrite Hfft; reflexivity).
  destruct (sample_array a read Hn) as [Hlen Hbytes]. cbv zeta in Hlen, Hbytes.
  pose proof (reduce_sum_bounds _ Hbytes) as Hsum.
  unfold sample. apply round_div_bounds; lia.
Qed.

Lemma some_not_none {A : Type} (x : A) : Some x <> None.
Proof. discriminate. Qed.

Ltac use_facts :=
  repeat match goal with
  | H : _ /\ _ |- _ => destruct H
  | H : forall a, Some ?x = Some a -> _ |- _ => specialize (H x eq_refl)
  | H : forall a, None = Some a -> _ |- _ => clear H
  | H : forall h a, [(?x, ?y)] = [(h, a)] -> _ |- _ =>
      specialize (H x y eq_refl)
  | H : forall h a, [] = [(h, a)] -> _ |- _ => clear H
  | H : Some ?x <> None -> _ |- _ =>
      specialize (H (some_not_none x))
  | H : None <> None -> _ |- _ => clear H
  | H : None = None -> _ |- _ => specialize (H eq_refl)
  | H : Some _ = None -> _ |- _ => clear H
  end.

Ltac media_goal :=
  intros;
  repeat match goal with
  | H : Some _ = Some _ |- _ => injection H as <-
  | H : [(_, _)] = [(_, _)] |- _ => injection H as <- <-
  end;
  try match goal with
  | H : forall a, ?r = Some a -> _, E : ?r = Some ?a |- _ =>
      destruct (H a E) as [? [? ?]]
  end;
  repeat apply conj;
  first [ assumption | discriminate | reflexivity | congruence | lia
        | apply sample_byte; first [assumption | reflexivity]
        | match goal with
          | H : _ <> None -> ?G |- ?G =>
              apply H; first [assumption | discriminate]
          end
        | solve [auto]
        | exfalso; congruence ].

Ltac media_leaf Hf Hm :=
  unfold frame_inv, media_inv in *; cbn in *;
  destruct Hf as [_ [_ [Hnone_ | [? [? [Hone_ [Href_ Hpos_]]]]]]];
  [ rewrite ?Hnone_ in *
  | try discriminate Href_; try (injection Href_ as <-); rewrite ?Hone_ in * ];
  repeat match goal with
  | H : truthy_number _ = false |- _ => apply truthy_number_false in H; subst
  end;
  cbn in *; rewrite ?Z.eqb_refl in *; cbn in *;
  try lia;
  use_facts;
  repeat apply conj; media_goal.

Lemma step_media_inv (env : Env) (ev : Event) (w w' : World) :
  frame_inv w -> media_inv w -> step env ev w = Some w' -> media_inv w'.
Proof.
  intros Hf Hm Hstep. destruct ev; by_event Hstep.
  10: { (* a frame arrives *)
    pose proof Hf as Hf'.
    destruct Hf' as [_ [_ [Hnone | [h [a0 [Hone [Href Hpos]]]]]]];
      [rewrite Hnone in Heqo; discriminate|].
    rewrite Hone in Heqo. apply find_frame_single in Heqo as [-> ->].
    revert Hf Hm. unfold tick. open_world w. open_env env. plumbing.
    intros Hf Hm. media_leaf Hf Hm. }
  9: destruct c.
  all: revert Hf Hm; open_handlers; open_world w; open_env env; branches;
    intros Hf Hm; media_leaf Hf Hm.
Qed.

Lemma reachable_media_inv (w : World) : reachable w -> media_inv w.
Proof.
  intros Hreach. induction Hreach as [|env ev w w' Hreach IH Hstep].
  - unfold media_inv. cbn. repeat apply conj; intros; (discriminate || lia || auto).
  - exact (step_media_inv env ev w w' (reachable_frame_inv w Hreach) IH Hstep).
Qed.

(** X22.  In every reachable world the mic level lies in 0..255 and the
    meter's percentage in 0..100, and every analyser held or read by a
    scheduled frame has 128 frequency bins. *)
Theorem mic_level_is_a_byte (w : World) :
  reachable w ->
  (0 <= micLevel (state w) <= 255)%Z /\
  (0 <= mic_activity (micLevel (state w)) <= 100)%Z /\
  (forall a, analyserRef (refs w) = Some a -> frequencyBinCount a = 128%Z) /\
  (forall h a, In (h, a) (pending_frames (log w)) ->
     frequencyBinCount a = 128%Z).
Proof.
  intros Hreach. pose proof (reachable_frame_inv w Hreach) as Hf.
  destruct (reachable_media_inv w Hreach) as [Ha [_ [Hp [Hlevel _]]]].
  split; [exact Hlevel|]. split; [|split].
  - destruct (mic_activity_quotient (micLevel (state w))) as [q [r [Hq [Hr ->]]]].
    lia.
  - intros a Hheld. destruct (Ha a Hheld) as [Hfft _].
    unfold frequencyBinCount. rewrite Hfft. reflexivity.
  - intros h a Hin.
    destruct Hf as [_ [_ [Hnone | [h0 [a0 [Hone _]]]]]].
    + rewrite Hnone in Hin. destruct Hin.
    + rewrite Hone in Hin. destruct Hin as [E | []]. injection E as <- <-.
      destruct (Hp h0 a0 Hone) as [Hfft _].
      unfold frequencyBinCount. rewrite Hfft. reflexivity.
Qed.

(** X23.  In every reachable world an analyser is held only together with an
    audio context and a stream, an audio context only with a stream, and a
    frame is outstanding only while an analyser is held.  Without an analyser
    the mic level is 0 and the meter shows "Mic idle"; without a stream
    nothing of the audio pipeline is held or scheduled. *)
Theorem media_resources_hang_together (w : World) :
  reachable w ->
  (analyserRef (refs w) <> None ->
     localStreamRef (refs w) <> None /\ audioContextRef (refs w) <> None) /\
  (audioContextRef (refs w) <> None -> localStreamRef (refs w) <> None) /\
  (pending_frames (log w) <> [] -> analyserRef (refs w) <> None) /\
  (analyserRef (refs w) = None ->
     micLevel (state w) = 0%Z /\ mic_readout (micLevel (state w)) = None) /\
  (localStreamRef (refs w) = None ->
     analyserRef (refs w) = None /\ audioContextRef (refs w) = None /\
     pending_frames (log w) = [] /\ micLevel (state w) = 0%Z).
Proof.
  intros Hreach. pose proof (reachable_frame_inv w Hreach) as Hf.
  destruct (reachable_media_inv w Hreach) as [Ha [Hc [Hp [_ Hz]]]].
  assert (Hpend : pending_frames (log w) <> [] -> analyserRef (refs w) <> None).
  { intros Hne. destruct Hf as [_ [_ [Hnone | [h0 [a0 [Hone _]]]]]];
      [contradiction|]. exact (proj2 (Hp h0 a0 Hone)). }
  split; [|split; [|split; [|split]]].
  - intros Hne. destruct (analyserRef (refs w)) as [a|] eqn:E; [|contradiction].
    destruct (Ha a eq_refl) as [_ [Hs Hctx]]. split; assumption.
  - exact Hc.
  - exact Hpend.
  - intros Hnone. rewrite (Hz Hnone). split; reflexivity.
  - intros Hnone.
    assert (Han : analyserRef (refs w) = None).
    { destruct (analyserRef (refs w)) as [a|] eqn:E; [|reflexivity].
      destruct (Ha a eq_refl) as [_ [Hs _]]. contradiction. }
    split; [exact Han|]. split; [|split].
    + destruct (audioContextRef (refs w)) as [c|] eqn:E; [|reflexivity].
      exfalso. apply Hc; [discriminate | exact Hnone].
    + destruct (pending_frames (log w)) as [|p l] eqn:E; [reflexivity|].
      exfalso. apply Hpend; [discriminate | exact Han].
    + exact (Hz Han).
Qed.

(** ** The theorems above at work *)

Lemma agent_id_from_uuid_witness :
  createAgentId
    (raw_id (Some (lit "0123abcd" ++ lit "-89ab-4cde-8f01-23456789abcd")) [] []) =
  lit "agentic-" ++ firstn 4 (lit "0123abcd") ++ lit "-" ++
  skipn 4 (lit "0123abcd").
Proof.
  exact (proj1 (agent_id_from_uuid (lit "0123abcd")
                  (lit "-89ab-4cde-8f01-23456789abcd") [] []
                  eq_refl eq_refl)).
Defined.

Lemma agent_id_fallback_ignores_random_witness :
  createAgentId (raw_id None (lit "lq1x2y3z") (lit "0.4fzyo82mvyr")) =
  createAgentId (raw_id None (lit "lq1x2y3z") (lit "0.9zzzzzzzzzz")).
Proof.
  apply (agent_id_fallback_ignores_random (lit "lq1x2y3z")
           (lit "0.4fzyo82mvyr") (lit "0.9zzzzzzzzzz")).
  vm_compute. lia.
Defined.

Lemma mic_readout_range_witness : mic_readout 255 = Some 100%Z.
Proof.
  destruct (mic_readout_range 255 255) as [_ [_ [H _]]].
  apply (H ltac:(lia)). lia.
Defined.

Lemma buttons_gate_witness :
  callDisabled (state failed_dial) = true /\
  hangUpDisabled (state failed_dial) = true.
Proof.
  destruct (buttons_gate (state failed_dial)) as [_ [_ [_ [H _]]]].
  apply H. left. vm_compute. reflexivity.
Defined.

Lemma ensureLocalStream_reuses_witness :
  localStreamRef (refs (run (ensureLocalStream env_ok) loaded)) =
  Some microphone.
Proof.
  exact (proj1 (ensureLocalStream_reuses env_ok env_ok loaded microphone
                  ltac:(vm_compute; reflexivity))).
Defined.

Lemma ensureLocalStream_refused_witness :
  refs (run (ensureLocalStream env_denied) initial) = refs initial.
Proof.
  destruct (ensureLocalStream_refused env_denied initial
              (ErrorObj (lit "Permission denied")) eq_refl eq_refl)
    as [_ [H _]].
  exact H.
Defined.

Lemma ensureLocalStream_without_AudioContext_witness :
  localStreamRef (refs (run (ensureLocalStream env_no_AudioContext) initial)) =
  Some microphone.
Proof.
  destruct (ensureLocalStream_without_AudioContext env_no_AudioContext env_ok
              initial microphone eq_refl eq_refl eq_refl eq_refl)
    as [_ [_ [_ [H _]]]].
  exact H.
Defined.

Lemma ensureLocalStream_settled_replaces_witness :
  localStreamRef (refs (run (ensureLocalStream_settled env_headset) dialing)) =
  Some headset.
Proof.
  exact (proj1 (ensureLocalStream_settled_replaces env_headset dialing
                  microphone headset ltac:(vm_compute; reflexivity) eq_refl)).
Defined.

Lemma placeCall_agent_not_ready_witness :
  status (state (run (placeCall env_ok (lit " bob ")) initial)) = error.
Proof.
  destruct (placeCall_agent_not_ready env_ok (lit " bob ") initial
              eq_refl eq_refl) as [_ [H _]].
  exact H.
Defined.

Lemma placeCall_microphone_refused_witness :
  refs (run (placeCall env_denied (lit " bob ")) loaded) = refs loaded.
Proof.
  destruct (placeCall_microphone_refused env_denied (lit " bob ") loaded
              {| peer_id := createAgentId (lit "0123456789abcdef") |}
              (ErrorObj (lit "Permission denied")) eq_refl
              ltac:(vm_compute; reflexivity) ltac:(vm_compute; reflexivity)
              eq_refl) as [_ [_ [_ H]]].
  exact H.
Defined.

Lemma placeCall_transport_throws_witness :
  localStreamRef (refs (run (placeCall env_call_throws (lit " bob ")) loaded)) =
  Some microphone.
Proof.
  destruct (placeCall_transport_throws env_call_throws (lit " bob ") loaded
              {| peer_id := createAgentId (lit "0123456789abcdef") |}
              microphone (ErrorObj (lit "Cannot connect to new Peer")) eq_refl
              ltac:(vm_compute; reflexivity) ltac:(vm_compute; reflexivity)
              eq_refl) as [_ [_ [_ [H _]]]].
  exact H.
Defined.


Lemma onPeerCall_answer_throws_witness :
  callRef (refs (run (onPeerCall env_answer_throws carol_call) dialing)) =
  callRef (refs dialing).
Proof.
  destruct (onPeerCall_answer_throws env_answer_throws carol_call dialing
              microphone Other ltac:(vm_compute; reflexivity) eq_refl)
    as [_ [_ [H _]]].
  exact H.
Defined.


Lemma reconnect_shows_ready_witness :
  exists w1 w2,
    step env_ok EvPeerDisconnected dialing = Some w1 /\
    step env_ok (EvPeerOpen (lit "agentic-0123-4567")) w1 = Some w2 /\
    status (state w2) = ready /\ refs w2 = refs dialing.
Proof.
  eexists. eexists.
  split; [vm_compute; reflexivity|]. split; [vm_compute; reflexivity|].
  destruct (reconnect_shows_ready env_ok env_ok (lit "agentic-0123-4567")
              dialing _ _
              ltac:(vm_compute; reflexivity)
              ltac:(vm_compute; reflexivity)
              ltac:(vm_compute; reflexivity))
    as [_ [_ [_ [Hs [_ [_ [Hr _]]]]]]].
  split; [exact Hs | exact Hr].
Defined.

Lemma handleCopyId_cases_witness :
  isCopying (state (run (handleCopyId env_ok) dialing)) = true.
Proof.
  destruct (handleCopyId_cases env_ok dialing) as [_ [_ [H _]]].
  destruct (H ltac:(vm_compute; discriminate) eq_refl) as [_ [Hc _]].
  exact Hc.
Defined.

Lemma mic_level_is_a_byte_witness :
  (0 <= micLevel (state dialing) <= 255)%Z.
Proof.
  exact (proj1 (mic_level_is_a_byte dialing dialing_reachable)).
Defined.

Lemma media_resources_hang_together_witness :
  localStreamRef (refs dialing) <> None /\ audioContextRef (refs dialing) <> None.
Proof.
  destruct (media_resources_hang_together dialing dialing_reachable)
    as [H _].
  exact (H ltac:(vm_compute; discriminate)).
Defined.


Lemma placeCall_parks_at_the_prompt_witness :
  awaiting (start (placeCall_begin env_ok (lit " bob ")) loaded) =
  awaiting loaded ++ [ResumePlaceCall (lit " bob ")].
Proof.
  destruct (placeCall_parks_at_the_prompt env_ok (lit " bob ") loaded
              {| peer_id := createAgentId (lit "0123456789abcdef") |} eq_refl
              ltac:(vm_compute; reflexivity) ltac:(vm_compute; reflexivity))
    as [_ [H _]].
  exact H.
Defined.

